(** * Bison Relay: a shallow embedding of the INI database, the chat-message
    element passes, the chat window and the client RPC declarations.

    The development follows the Go sources:
    - [inidb] embeds [inidb/inidb.go] (tables, records, Save and prune);
    - [chatmsg] embeds the chat-message element passes and the chat window
      of the terminal client;
    - [clientrpc] embeds the message declarations of [clientrpc.proto];
    - [core] holds the parts of the routing core that are described by the
      specification only. *)

From Stdlib Require Import ZArith String Ascii DecimalString DecimalPos.
From stdpp Require Import gmap strings list sorting.

Local Open Scope string_scope.
Local Open Scope Z_scope.

(** ** The INI database: [inidb/inidb.go] *)

Module inidb.

(** [const auto]. *)
Definition auto : string := "# This file is autogenerated, DO NOT EDIT!".

(** The package's error values. [ErrNotFound] and [ErrCreated] are the two
    sentinel variables; every [fmt.Errorf] result is an [ErrIO] carrying the
    message prefix. *)
Inductive error : Type :=
  | ErrNotFound
  | ErrCreated
  | ErrIO (msg : string).

(** [type INIDB struct]. The mutex carries no data. [tables] is the
    [ini.File] map of sections, each section a map of records. [filename] is
    the name of the database file inside its directory. *)
Record INIDB : Type := mkINIDB {
  filename : string;
  depth : Z;
  dirty : bool;
  created : bool;
  tables : gmap string (gmap string string)
}.

Definition set_dirty (b : bool) (i : INIDB) : INIDB :=
  mkINIDB (filename i) (depth i) b (created i) (tables i).

Definition set_tables (t : gmap string (gmap string string)) (i : INIDB) : INIDB :=
  mkINIDB (filename i) (depth i) (dirty i) (created i) t.

(** *** Tables and records *)

(** [ini.File.Section]: returns the named section, creating it when it is
    missing. *)
Definition Section_ (name : string) (f : gmap string (gmap string string))
  : gmap string (gmap string string) :=
  match f !! name with
  | Some _ => f
  | None => <[name := ∅]> f
  end.

(** [func (i *INIDB) Get]. [ini.File.Get] looks the section up, then the
    key. *)
Definition Get (table key : string) (i : INIDB) : string * option error :=
  match tables i !! table with
  | Some s =>
      match s !! key with
      | Some value => (value, None)
      | None => ("", Some ErrNotFound)
      end
  | None => ("", Some ErrNotFound)
  end.

(** [func (i *INIDB) Set]. *)
Definition Set_ (table key value : string) (i : INIDB) : INIDB * option error :=
  match tables i !! table with
  | None => (i, Some ErrNotFound)
  | Some s =>
      (set_dirty true (set_tables (<[table := <[key := value]> s]> (tables i)) i),
       None)
  end.

(** [func (i *INIDB) Del]. *)
Definition Del (table key : string) (i : INIDB) : INIDB * option error :=
  match tables i !! table with
  | None => (i, Some ErrNotFound)
  | Some s =>
      (set_dirty true (set_tables (<[table := delete key s]> (tables i)) i),
       None)
  end.

(** [func (i *INIDB) NewTable]. *)
Definition NewTable (table : string) (i : INIDB) : INIDB :=
  set_tables (Section_ table (tables i)) i.

(** [func (i *INIDB) DelTable]. *)
Definition DelTable (table : string) (i : INIDB) : INIDB * option error :=
  match tables i !! table with
  | None => (i, Some ErrNotFound)
  | Some _ => (set_dirty true (set_tables (delete table (tables i)) i), None)
  end.

(** [func (i *INIDB) Records]: a copy of the records of a table; a missing
    table ranges as the nil map. *)
Definition Records (table : string) (i : INIDB) : gmap string string :=
  default ∅ (tables i !! table).

(** [func (i *INIDB) Tables]. *)
Definition Tables (i : INIDB) : list string :=
  (map_to_list (tables i)).*1.

(** *** The directory of the database

    Every file operation of [Save] and [prune] addresses
    [filepath.Dir(i.filename)]; the model is that one directory, a finite map
    from entry names to file contents, and [filename] is the name of the
    database inside it. *)

(** What the system decides during one call of [Save] or [New]: the numbers
    [os.CreateTemp] draws for its names, try after try; the formatted
    [time.Now()]; the order in which [range] visits the tables and the
    records of a table, which Go leaves open; and the entries [os.Remove]
    fails on (a directory that is not empty, an entry it may not remove). *)
Record sys : Type := mkSys {
  nextRandom : nat → N;
  time_Now : string;
  range_tables :
    list (string * gmap string string) → list (string * gmap string string);
  range_records : string → list (string * string) → list (string * string);
  Remove_fails : string → bool
}.

(** The orders Go can give: [range] visits every entry of the map once. *)
Definition range_ok (e : sys) : Prop :=
  (∀ l, range_tables e l ≡ₚ l) ∧ (∀ t l, range_records e t l ≡ₚ l).

(** [os.Rename]: fails when the source is missing, replaces the target. *)
Definition Rename (old new : string) (d : gmap string string)
  : option (gmap string string) :=
  match d !! old with
  | None => None
  | Some c => Some (<[new := c]> (delete old d))
  end.

(** [os.Remove] of an entry of the directory: where it fails the entry
    stays, and [prune] drops the error. *)
Definition Remove (e : sys) (name : string) (d : gmap string string)
  : gmap string string :=
  if Remove_fails e name then d else delete name d.

(** [os.ReadDir]: the entry names, sorted by name. *)
Definition ReadDir (d : gmap string string) : list string :=
  merge_sort String.le (map_to_list d).*1.

(** The decimal digits of a number, as [os.CreateTemp] writes the number it
    draws. *)
Definition uitoa (n : N) : string := NilEmpty.string_of_uint (N.to_uint n).

(** A path separator in the pattern. *)
Fixpoint has_separator (s : string) : bool :=
  match s with
  | EmptyString => false
  | String c rest => Ascii.eqb c "/" || has_separator rest
  end.

(** The pattern cut at its last star: what is before the star and what is
    after it; [None] when the pattern has no star. *)
Fixpoint cut_last_star (s : string) : option (string * string) :=
  match s with
  | EmptyString => None
  | String c rest =>
      match cut_last_star rest with
      | Some (p, q) => Some (String c p, q)
      | None => if Ascii.eqb c "*" then Some ("", rest) else None
      end
  end.

(** [prefixAndSuffix] of [os.CreateTemp]: the random string replaces the
    last star of the pattern, or goes at the end of a pattern without star;
    a pattern with a path separator is refused. *)
Definition prefixAndSuffix (pattern : string) : option (string * string) :=
  if has_separator pattern then None
  else
    match cut_last_star pattern with
    | Some ps => Some ps
    | None => Some (pattern, "")
    end.

(** The loop of [os.CreateTemp] with [tries] tries left, at the draw of
    index [k]: a name that is taken is tried again with the next draw. *)
Fixpoint CreateTemp_loop (rnd : nat → N) (prefix suffix : string)
    (d : gmap string string) (tries k : nat)
  : option (string * gmap string string) :=
  match tries with
  | O => None
  | S tries' =>
      let name := prefix ++ uitoa (rnd k) ++ suffix in
      match d !! name with
      | Some _ => CreateTemp_loop rnd prefix suffix d tries' (S k)
      | None => Some (name, <[name := ""]> d)
      end
  end.

(** [os.CreateTemp(dir, pattern)]: a new, empty file; the name and the
    directory with it, or [None] for an error (a separator in the pattern,
    or ten thousand names that are all taken). *)
Definition CreateTemp (e : sys) (pattern : string) (d : gmap string string)
  : option (string * gmap string string) :=
  match prefixAndSuffix pattern with
  | None => None
  | Some (prefix, suffix) =>
      CreateTemp_loop (nextRandom e) prefix suffix d (N.to_nat 10000) 0
  end.

(** The newline character of the format strings. *)
Definition nl : string := String (ascii_of_nat 10) EmptyString.

(** The records of one section, [rk = rv] lines in the order of the range. *)
Definition render_section (e : sys) (tk : string) (tv : gmap string string)
  : string :=
  foldr (λ (r : string * string) acc, r.1 ++ " = " ++ r.2 ++ nl ++ acc)
    "" (range_records e tk (map_to_list tv)).

(** The text [Save] writes, the tables and the records of each table in the
    order of the range. *)
Definition render (e : sys) (t : gmap string (gmap string string)) : string :=
  auto ++ nl ++
  foldr (λ (s : string * gmap string string) acc,
           (if String.eqb s.1 "" then "" else "[" ++ s.1 ++ "]" ++ nl)
           ++ render_section e s.1 s.2 ++ nl ++ acc)
    "" (range_tables e (map_to_list t)).

(** The name of the backup: [fmt.Sprintf("%v.%v", i.filename, now)], where
    [now] is the formatted time. *)
Definition backupName (fname now : string) : string := fname ++ "." ++ now.

(** The entries [prune] lists: the names that start with the name of the
    database followed by a dot, in the order of [ReadDir]. *)
Definition backups (fname : string) (d : gmap string string) : list string :=
  List.filter (λ v, String.prefix (fname ++ ".") v) (ReadDir d).

(** [func (i *INIDB) prune]. *)
Definition prune (e : sys) (i : INIDB) (d : gmap string string)
  : gmap string string * option error :=
  if depth i <? 0 then (d, None)
  else
    let find := filename i ++ "." in
    let pl := List.filter (λ v, String.prefix find v) (ReadDir d) in
    if Z.of_nat (length pl) - depth i <? 0 then (d, None)
    else
      (foldl (λ d' v, Remove e v d') d
         (take (Z.to_nat (Z.of_nat (length pl) - depth i)) pl),
       None).

(** The first half of [Save], for a dirty database: the temporary file is
    created and written, and the original is renamed to its backup unless
    the database was created. The result is the directory just before the
    new file is renamed, with the name of the temporary file or the error
    [Save] returns. *)
Definition Save_backup (e : sys) (i : INIDB) (d : gmap string string)
  : gmap string string * (string + error) :=
  match CreateTemp e (filename i) d with
  | None => (d, inr (ErrIO "could not create temporary file"))
  | Some (f, d1) =>
      let d2 := <[f := render e (tables i)]> d1 in
      if created i then (d2, inl f)
      else
        match Rename (filename i) (backupName (filename i) (time_Now e)) d2 with
        | None => (d2, inr (ErrIO "could not rename original file"))
        | Some d3 => (d3, inl f)
        end
  end.

(** [func (i *INIDB) Save]. *)
Definition Save (e : sys) (i : INIDB) (d : gmap string string)
  : INIDB * gmap string string * option error :=
  if negb (dirty i) then (i, d, None)
  else
    match Save_backup e i d with
    | (d3, inr err) => (i, d3, Some err)
    | (d3, inl f) =>
        match Rename f (filename i) d3 with
        | None => (i, d3, Some (ErrIO "could not rename new file"))
        | Some d4 =>
            let i' := set_dirty false i in
            let '(d5, err) := prune e i' d4 in
            (i', d5, err)
        end
    end.

Section New.

(** [ini.Load] of the go-ini library, applied to the text of a file: the
    sections read, and whether the text was rejected. *)
Variable ini_Load : string → gmap string (gmap string string) * bool.

(** [ini.LoadFile]: a missing file gives the empty [File] and the error of
    [os.Open]. The result is the sections, whether the file is missing, and
    whether there is another error. *)
Definition ini_LoadFile (fname : string) (d : gmap string string)
  : gmap string (gmap string string) * bool * bool :=
  match d !! fname with
  | None => (∅, true, false)
  | Some text => let '(f, bad) := ini_Load text in (f, false, bad)
  end.

(** [func New]. The directory of the file is [None] when it does not exist;
    [os.MkdirAll] then creates it. The result is [None] for the nil
    database. *)
Definition New (e : sys) (fname : string) (create : bool) (dpth : Z)
    (w : option (gmap string string))
  : option INIDB * option (gmap string string) * option error :=
  let stat :=
    match w with
    | Some d => inl d
    | None => if create then inl ∅
              else inr (ErrIO "could not create lock")
    end in
  match stat with
  | inr err => (None, w, Some err)
  | inl d =>
      let '(t, missing, bad) := ini_LoadFile fname d in
      let t := Section_ "" t in
      if missing && create then
        let i := mkINIDB fname dpth true true t in
        match Save e i d with
        | (_, d', Some err2) => (None, Some d', Some err2)
        | (i', d', None) => (Some i', Some d', Some ErrCreated)
        end
      else if missing || bad then
        (None, Some d, Some (ErrIO "could not open"))
      else (Some (mkINIDB fname dpth false false t), Some d, None)
  end.

End New.

(** The directory just before the new file replaces the database holds the
    previous contents of the database under a name of a backup. *)
Definition backup_before_replace (e : sys) (i : INIDB)
    (d : gmap string string) : Prop :=
  ∀ c, d !! filename i = Some c →
    ∃ name, String.prefix (filename i ++ ".") name = true ∧
            (Save_backup e i d).1 !! name = Some c.

(** The system of the examples: every draw is [rnd], the time is [now],
    [range] goes in the order of [map_to_list] and every removal succeeds. *)
Definition sys_at (rnd : N) (now : string) : sys :=
  mkSys (λ _, rnd) now (λ l, l) (λ _ l, l) (λ _, false).

(** A system that visits the maps in the opposite order, draws another
    number at each try, and cannot remove the oldest backup of the
    examples. *)
Definition sys_other (now : string) : sys :=
  mkSys (λ k, 7 + N.of_nat k)%N now (λ l, reverse l) (λ _ l, reverse l)
    (λ k, String.eqb k "config.20230101.000000.000000000").

(** A clean database with the default table only. *)
Definition empty_db : INIDB := mkINIDB "config" 3 false false {[ "" := ∅ ]}.

(** A database with two tables and its directory, with three earlier
    backups and a file of another program. *)
Definition example_db : INIDB :=
  mkINIDB "config" 2 true false
    {[ "" := {[ "server" := "localhost" ]};
       "peers" := {[ "alice" := "1"; "bob" := "2" ]} ]}.

Definition example_dir : gmap string string :=
  {[ "config" := "old";
     "config.20230101.000000.000000000" := "b0";
     "config.20230102.000000.000000000" := "b1";
     "config.20230103.000000.000000000" := "b2";
     "other" := "o" ]}.

(** The same database under a name with a star, and its directory, where
    the first name [os.CreateTemp] tries is taken. *)
Definition star_db : INIDB :=
  mkINIDB "conf*ig" 2 true false (tables example_db).

Definition star_dir : gmap string string :=
  {[ "conf*ig" := "old"; "conf7ig" := "taken" ]}.

(** A directory where the file of the database is gone. *)
Definition missing_dir : gmap string string := {[ "other" := "o" ]}.

(** A parser of INI text that reads no section: enough for a database that
    is created. *)
Definition ini_Load_empty (text : string) : gmap string (gmap string string) * bool :=
  (∅, false).

(** The database [New] creates in a directory that does not exist yet, with
    no limit on the backups, and that database after one record is set. *)
Definition created_db : INIDB := mkINIDB "config" (-1) false true {[ "" := ∅ ]}.

Definition created_dir : gmap string string :=
  {[ "config" := auto ++ nl ++ nl ]}.

Definition created_db_set : INIDB :=
  mkINIDB "config" (-1) true true {[ "" := {[ "nick" := "bob" ]} ]}.

End inidb.

(** ** Chat messages and the chat window of the terminal client *)

Module chatmsg.

(** [regexp.Regexp], seen through the one method the passes call:
    [FindAllStringIndex(s, -1)], the start and end offsets of the successive
    matches in [s]. *)
Definition Regexp : Type := string → list (nat * nat).

(** The Go slice expression [s[lo:hi]] on a string; [None] is the run-time
    panic on bounds that are out of range. *)
Definition slice (s : string) (lo hi : nat) : option string :=
  if (lo <=? hi)%nat && (hi <=? String.length s)%nat
  then Some (substring lo (hi - lo) s)
  else None.

(** [clientintf.UserID] and [zkidentity.ShortID]: an array of 32 bytes. *)
Definition UserID : Type := list Byte.byte.

(** [rpc.PostMetadata], as [clientrpc.proto] declares it. *)
Record PostMetadata : Type := mkPostMetadata {
  pm_version : N;
  pm_attributes : gmap string string
}.

Section elements.

(** [embeddedArgs], [parseEmbedArgs] and [embedRegexp] are declared in
    another file of the package. *)
Context {embeddedArgs : Type}.
Variable parseEmbedArgs : string → embeddedArgs.
Variable embedRegexp : Regexp.

(** [var urlRegexp], compiled by the regexp library. *)
Variable urlRegexp : Regexp.

(** [regexp.Compile]; [None] is a pattern the library rejects. *)
Variable regexp_Compile : string → option Regexp.

(** [type chatMsgEl struct]; a nil pointer is [None]. *)
Record chatMsgEl : Type := mkEl {
  text : string;
  embed : option embeddedArgs;
  mention : option string;
  url : option string
}.

Definition textEl (s : string) : chatMsgEl := mkEl s None None None.
Definition embedEl (s : string) : chatMsgEl :=
  mkEl "" (Some (parseEmbedArgs s)) None None.
Definition mentionEl (s : string) : chatMsgEl := mkEl "" None (Some s) None.
Definition urlEl (s : string) : chatMsgEl := mkEl "" None None (Some s).

(** The inner loop of the three passes, over the matches that remain: the
    text between the last match and this one, then the match itself; after
    the last match the rest of the text. The elements are the ones the loop
    inserts before [el], in order. *)
Fixpoint splitAt (mk : string → chatMsgEl) (s : string) (lastEnd : nat)
    (positions : list (nat * nat)) : option (list chatMsgEl) :=
  match positions with
  | [] =>
      suffix ← slice s lastEnd (String.length s);
      Some [textEl suffix]
  | pos :: rest =>
      prefix ← slice s lastEnd pos.1;
      m ← slice s pos.1 pos.2;
      tl ← splitAt mk s pos.2 rest;
      Some (textEl prefix :: mk m :: tl)
  end.

(** The outer loop of the three passes. An element without text, or whose
    text has no match, stays; any other element is replaced by the elements
    of [splitAt], and the loop goes on after them. *)
Fixpoint splitWith (re : Regexp) (mk : string → chatMsgEl)
    (l : list chatMsgEl) : option (list chatMsgEl) :=
  match l with
  | [] => Some []
  | el :: rest =>
      let s := text el in
      if String.eqb s "" then cons el <$> splitWith re mk rest
      else
        match re s with
        | [] => cons el <$> splitWith re mk rest
        | positions =>
            new ← splitAt mk s 0 positions;
            tl ← splitWith re mk rest;
            Some (new ++ tl)%list
        end
  end.

(** [func (l *chatMsgElLine) splitMentions]. *)
Definition splitMentions (mention_ : string) (l : list chatMsgEl)
  : option (list chatMsgEl) :=
  match regexp_Compile ("\b" ++ mention_ ++ "\b") with
  | None => Some l
  | Some re => splitWith re mentionEl l
  end.

(** [func (l *chatMsgElLine) splitEmbeds]. *)
Definition splitEmbeds (l : list chatMsgEl) : option (list chatMsgEl) :=
  splitWith embedRegexp embedEl l.

(** [func (l *chatMsgElLine) splitURLs]. *)
Definition splitURLs (l : list chatMsgEl) : option (list chatMsgEl) :=
  splitWith urlRegexp urlEl l.

(** [func (l *chatMsgElLine) parseLine], on the list [l]. *)
Definition parseLine (line mention_ : string) (l : list chatMsgEl)
  : option (list chatMsgEl) :=
  l1 ← splitEmbeds (l ++ [textEl line])%list;
  l2 ← splitURLs l1;
  if String.eqb mention_ "" then Some l2 else splitMentions mention_ l2.

(** [func parseMsgLine]. *)
Definition parseMsgLine (line mention_ : string) : option (list chatMsgEl) :=
  parseLine line mention_ [].

(** [strings.Split(msg, "\n")]. *)
Fixpoint split_lines (msg : string) : list string :=
  match msg with
  | EmptyString => [""]
  | String c rest =>
      if Ascii.eqb c (ascii_of_nat 10) then "" :: split_lines rest
      else
        match split_lines rest with
        | [] => [String c ""]
        | h :: t => String c h :: t
        end
  end.

(** [func parseMsgIntoElements]. *)
Definition parseMsgIntoElements (msg mention_ : string)
  : option (list (list chatMsgEl)) :=
  mapM (λ line, parseMsgLine line mention_) (split_lines msg).

(** The characters an element carries: its text, its mention and its url. *)
Definition el_content (el : chatMsgEl) : string :=
  text el ++ default "" (mention el) ++ default "" (url el).

Definition content (l : list chatMsgEl) : string :=
  foldr (λ el acc, el_content el ++ acc) "" l.

(** An element with text carries neither a mention nor a url: the shape of
    every element the passes build. *)
Definition plain (el : chatMsgEl) : bool :=
  String.eqb (text el) ""
  || match mention el, url el with
     | None, None => true
     | _, _ => false
     end.

(** The matches are successive and inside a string of length [len]: each
    starts at or after the end of the one before, and ends at or after its
    start. *)
Fixpoint valid_positions (len lastEnd : nat) (positions : list (nat * nat)) : bool :=
  match positions with
  | [] => (lastEnd <=? len)%nat
  | pos :: rest =>
      (lastEnd <=? pos.1)%nat && (pos.1 <=? pos.2)%nat && (pos.2 <=? len)%nat
      && valid_positions len pos.2 rest
  end.

Definition valid_matches (re : Regexp) (el : chatMsgEl) : bool :=
  valid_positions (String.length (text el)) 0 (re (text el)).

(** What the regexp library grants for [FindAllStringIndex]: on every
    string the matches are successive and inside the string. *)
Definition regexp_ok (re : Regexp) : Prop :=
  ∀ s, valid_positions (String.length s) 0 (re s) = true.

End elements.

Arguments chatMsgEl : clear implicits.

(** *** Matchers for the examples

    Two matchers that follow the regexp library on the patterns the passes
    use: a word between word boundaries, and [urlRegexp]. *)

(** The class [\w] of the library: ASCII letters, digits and the underscore. *)
Definition isWord (c : ascii) : bool :=
  let n := nat_of_ascii c in
  ((48 <=? n) && (n <=? 57) || (65 <=? n) && (n <=? 90)
   || (97 <=? n) && (n <=? 122) || (n =? 95))%nat.

(** The class [\s] of the library. *)
Definition isSpace (c : ascii) : bool :=
  let n := nat_of_ascii c in
  ((n =? 9) || (n =? 10) || (n =? 12) || (n =? 13) || (n =? 32))%nat.

Definition wordAt (s : string) (i : nat) : bool :=
  match String.get i s with
  | Some c => isWord c
  | None => false
  end.

(** [\b] at offset [i]: a word character on exactly one side. *)
Definition boundary (s : string) (i : nat) : bool :=
  xorb (match i with O => false | S p => wordAt s p end) (wordAt s i).

(** The leftmost matches from offset [i] on, where [match_at s i] is the end
    of the match that starts at [i]. *)
Fixpoint scan (match_at : string → nat → option nat) (s : string)
    (fuel i : nat) : list (nat * nat) :=
  match fuel with
  | O => []
  | S fuel' =>
      if (String.length s <? i)%nat then []
      else
        match match_at s i with
        | Some j =>
            (i, j) :: scan match_at s fuel' (if (i <? j)%nat then j else S i)
        | None => scan match_at s fuel' (S i)
        end
  end.

Definition match_word (w s : string) (i : nat) : option nat :=
  if boundary s i
     && String.prefix w (substring i (String.length s - i) s)
     && boundary s (i + String.length w)
  then Some (i + String.length w)%nat
  else None.

(** The matches of [\bw\b] for a word [w]. *)
Definition find_word (w : string) : Regexp :=
  λ s, scan (match_word w) s (S (String.length s)) 0.

Fixpoint run_length (s : string) : nat :=
  match s with
  | EmptyString => O
  | String c rest => if isSpace c then O else S (run_length rest)
  end.

Fixpoint last_boundary (s : string) (i k : nat) : option nat :=
  match k with
  | O => None
  | S k' =>
      if (4 <=? k)%nat && boundary s (i + k) then Some (i + k)%nat
      else last_boundary s i k'
  end.

Definition match_url (s : string) (i : nat) : option nat :=
  let rest := substring i (String.length s - i) s in
  if boundary s i && String.prefix "http" rest
  then last_boundary s i (run_length rest)
  else None.

(** The matches of [\bhttps?[^\s]*\b]. *)
Definition find_url : Regexp :=
  λ s, scan match_url s (S (String.length s)) 0.

(** A matcher without matches. *)
Definition find_nothing : Regexp := λ _, [].

Fixpoint all_word (s : string) : bool :=
  match s with
  | EmptyString => true
  | String c rest => isWord c && all_word rest
  end.

(** A compiler for the patterns [\bw\b] with [w] a word; it rejects the
    rest. *)
Definition compile_word (pattern : string) : option Regexp :=
  let n := String.length pattern in
  let w := substring 2 (n - 4) pattern in
  if (5 <=? n)%nat && String.eqb (substring 0 2 pattern) "\b"
     && String.eqb (substring (n - 2) 2 pattern) "\b" && all_word w
  then Some (find_word w)
  else None.

(** *** The chat window *)

Section window.

Context {embeddedArgs : Type}.
Variable parseEmbedArgs : string → embeddedArgs.
Variable embedRegexp : Regexp.
Variable urlRegexp : Regexp.
Variable regexp_Compile : string → option Regexp.

(** [type chatMsg struct]; [ts] is the time in nanoseconds. *)
Record chatMsg : Type := mkMsg {
  ts : Z;
  sent : bool;
  msg : string;
  elements : list (list (chatMsgEl embeddedArgs));
  mine : bool;
  internal : bool;
  help : bool;
  from : string;
  fromUID : option UserID;
  post : option PostMetadata
}.

(** [type chatWindow struct], without its mutex. *)
Record chatWindow : Type := mkWindow {
  uid : UserID;
  isGC : bool;
  msgs : list chatMsg;
  alias : string;
  me : string;
  gc : UserID;
  selEmbedArgs : embeddedArgs;
  selEmbed : Z;
  maxEmbeds : Z;
  unreadIdx : Z
}.

Definition set_msgs (l : list chatMsg) (cw : chatWindow) : chatWindow :=
  mkWindow (uid cw) (isGC cw) l (alias cw) (me cw) (gc cw)
    (selEmbedArgs cw) (selEmbed cw) (maxEmbeds cw) (unreadIdx cw).

Definition set_unreadIdx (n : Z) (cw : chatWindow) : chatWindow :=
  mkWindow (uid cw) (isGC cw) (msgs cw) (alias cw) (me cw) (gc cw)
    (selEmbedArgs cw) (selEmbed cw) (maxEmbeds cw) n.

(** [len(cw.msgs)]. *)
Definition len_msgs (cw : chatWindow) : Z := Z.of_nat (length (msgs cw)).

(** [func (cw *chatWindow) empty]. *)
Definition empty (cw : chatWindow) : bool := len_msgs cw =? 0.

(** [func (cw *chatWindow) appendMsg]; the nil message is [None]. *)
Definition appendMsg (m : option chatMsg) (cw : chatWindow) : chatWindow :=
  match m with
  | None => cw
  | Some m =>
      let resetUnreadIdx :=
        (mine m || internal m || help m) && (unreadIdx cw =? len_msgs cw) in
      let cw' := set_msgs (msgs cw ++ [m])%list cw in
      if resetUnreadIdx then set_unreadIdx (len_msgs cw') cw' else cw'
  end.

Definition parse (text_ mention_ : string) :=
  parseMsgIntoElements parseEmbedArgs embedRegexp urlRegexp regexp_Compile
    text_ mention_.

(** [func (cw *chatWindow) newUnsentPM]; [now] is [time.Now()]. [None] is a
    panic while the message is parsed, before the window is touched. *)
Definition newUnsentPM (now : Z) (text_ : string) (cw : chatWindow)
  : option (chatMsg * chatWindow) :=
  els ← parse text_ "";
  let m := mkMsg now false "" els true false false (me cw) None None in
  Some (m, appendMsg (Some m) cw).

(** [func (cw *chatWindow) newInternalMsg]. *)
Definition newInternalMsg (now : Z) (text_ : string) (cw : chatWindow)
  : option (chatMsg * chatWindow) :=
  els ← parse text_ "";
  let m := mkMsg now false "" els false true false "" None None in
  Some (m, appendMsg (Some m) cw).

(** The closure [pf] of [manyHelpMsgs], on the formatted message. *)
Definition helpMsg (cw : chatWindow) (p : Z * string) : option chatWindow :=
  els ← parse p.2 "";
  let m := mkMsg p.1 false "" els false false true "" None None in
  Some (set_msgs (msgs cw ++ [m])%list cw).

(** [func (cw *chatWindow) manyHelpMsgs]. The argument [f] is given by the
    calls it makes to [pf]: the time and the formatted message of each. *)
Fixpoint manyHelpMsgs (f : list (Z * string)) (cw : chatWindow)
  : option chatWindow :=
  match f with
  | [] => Some cw
  | p :: rest => cw' ← helpMsg cw p; manyHelpMsgs rest cw'
  end.

(** [func (cw *chatWindow) newHelpMsg]. *)
Definition newHelpMsg (now : Z) (formatted : string) (cw : chatWindow)
  : option chatWindow :=
  manyHelpMsgs [(now, formatted)] cw.

(** [func (cw *chatWindow) newRecvdMsg]. *)
Definition newRecvdMsg (from_ text_ : string) (fromUID_ : option UserID)
    (ts_ : Z) (cw : chatWindow) : option (chatMsg * chatWindow) :=
  els ← parse text_ (me cw);
  let m := mkMsg ts_ false "" els false false false from_ fromUID_ None in
  Some (m, appendMsg (Some m) cw).

(** [func (cw *chatWindow) markAllRead]. *)
Definition markAllRead (cw : chatWindow) : chatWindow :=
  set_unreadIdx (len_msgs cw) cw.

(** [func (cw *chatWindow) unreadCount]. *)
Definition unreadCount (cw : chatWindow) : Z := len_msgs cw - unreadIdx cw.

(** The index of the first unread message is inside the messages. *)
Definition unread_inv (cw : chatWindow) : Prop :=
  0 ≤ unreadIdx cw ≤ len_msgs cw.

(** The calls on a chat window. *)
Inductive call : Type :=
  | CallAppendMsg (m : option chatMsg)
  | CallNewUnsentPM (now : Z) (text_ : string)
  | CallNewInternalMsg (now : Z) (text_ : string)
  | CallManyHelpMsgs (f : list (Z * string))
  | CallNewRecvdMsg (from_ text_ : string) (fromUID_ : option UserID) (ts_ : Z)
  | CallMarkAllRead.

(** The window after one call; [None] when the call panics. *)
Definition exec (c : call) (cw : chatWindow) : option chatWindow :=
  match c with
  | CallAppendMsg m => Some (appendMsg m cw)
  | CallNewUnsentPM now text_ => snd <$> newUnsentPM now text_ cw
  | CallNewInternalMsg now text_ => snd <$> newInternalMsg now text_ cw
  | CallManyHelpMsgs f => manyHelpMsgs f cw
  | CallNewRecvdMsg from_ text_ fromUID_ ts_ =>
      snd <$> newRecvdMsg from_ text_ fromUID_ ts_ cw
  | CallMarkAllRead => Some (markAllRead cw)
  end.

(** The window after a sequence of calls. *)
Fixpoint run (cs : list call) (cw : chatWindow) : option chatWindow :=
  match cs with
  | [] => Some cw
  | c :: rest => cw' ← exec c cw; run rest cw'
  end.

End window.

Arguments chatMsg : clear implicits.
Arguments chatWindow : clear implicits.
Arguments call : clear implicits.

(** A window without messages, for the user [me_]. *)
Definition new_window (me_ : string) : chatWindow string :=
  mkWindow [] false [] "" me_ [] "" 0 0 0.

(** Calls on the window of bob: bob writes, a message arrives, all is
    marked read, another message arrives, help is printed, and a nil message
    is appended. *)
Definition example_calls : list (call string) :=
  [ CallNewUnsentPM 1 "hello alice";
    CallNewRecvdMsg "alice" "hi bob, see https://bisonrelay.org" None 2;
    CallMarkAllRead;
    CallNewRecvdMsg "alice" "bye" None 3;
    CallManyHelpMsgs [(4, "usage"); (5, "more usage")];
    CallAppendMsg None ].

(** A line with a url and two mentions of bob. *)
Definition example_line : list (chatMsgEl string) :=
  [textEl "bob, see https://bisonrelay.org/x. bye bob"].

End chatmsg.

(** ** The client RPC declarations: [clientrpc/clientrpc.proto] *)

Module clientrpc.

(** The types of the fields the messages below use. *)
Inductive field_type : Type :=
  | TString
  | TBytes
  | TInt64
  | TUint64
  | TEnum (name : string)
  | TMessage (name : string).

(** One field of a message: name, type and field number. *)
Record field : Type := mkField {
  field_name : string;
  field_ty : field_type;
  field_number : positive
}.

(** A message declaration: its name and its fields, in order. *)
Record message : Type := mkMessage {
  message_name : string;
  message_fields : list field
}.

(** One method of a service. *)
Record rpc : Type := mkRpc {
  rpc_name : string;
  rpc_request : message;
  rpc_response : message;
  rpc_streams : bool
}.

Definition VersionRequest : message := mkMessage "VersionRequest" [].

Definition VersionResponse : message :=
  mkMessage "VersionResponse"
    [ mkField "app_version" TString 1;
      mkField "go_runtime" TString 2;
      mkField "app_name" TString 3 ].

Definition KeepaliveStreamRequest : message :=
  mkMessage "KeepaliveStreamRequest" [ mkField "interval" TInt64 1 ].

Definition KeepaliveEvent : message :=
  mkMessage "KeepaliveEvent" [ mkField "timestamp" TInt64 1 ].

Definition AckRequest : message :=
  mkMessage "AckRequest" [ mkField "sequence_id" TUint64 1 ].

Definition AckResponse : message := mkMessage "AckResponse" [].

Definition RMPrivateMessage : message :=
  mkMessage "RMPrivateMessage"
    [ mkField "message" TString 1;
      mkField "mode" (TEnum "MessageMode") 2 ].

Definition RMGroupMessage : message :=
  mkMessage "RMGroupMessage"
    [ mkField "id" TBytes 1;
      mkField "generation" TUint64 2;
      mkField "message" TString 3;
      mkField "mode" (TEnum "MessageMode") 4 ].

(** [service VersionService]. *)
Definition Version : rpc :=
  mkRpc "Version" VersionRequest VersionResponse false.

Definition KeepaliveStream : rpc :=
  mkRpc "KeepaliveStream" KeepaliveStreamRequest KeepaliveEvent true.

Definition VersionService : list rpc := [ Version; KeepaliveStream ].

(** The names of the fields of a message, in order. *)
Definition field_names (m : message) : list string :=
  field_name <$> message_fields m.

(** [enum MessageMode]. *)
Inductive MessageMode : Type :=
  | MESSAGE_MODE_NORMAL
  | MESSAGE_MODE_ME.

(** A value of [RMGroupMessage]; the id is the 32 bytes of the group chat,
    as a number. *)
Record GroupMessage : Type := mkGroupMessage {
  gm_id : N;
  gm_generation : N;
  gm_message : string;
  gm_mode : MessageMode
}.

End clientrpc.

(** ** The routing core, from the specification

    The servers of the RPC methods and the routing core are not among the
    sources at hand; their behaviour is taken from the specification. *)

Module core.

(** *** Keepalive stream *)

(** Modelled from the spec: the server of [KeepaliveStream] is missing. The
    request carries the interval in milliseconds, and "a minimum of 1 second
    is imposed, regardless of the value passed as interval" (the server
    clamps to at least 1 s). *)
Definition keepalive_interval (interval_ms : Z) : Z :=
  if interval_ms <? 1000 then 1000 else interval_ms.

(** Modelled from the spec: the times, in milliseconds, of the first [n]
    heartbeats of a stream opened at [start]: one heartbeat per interval. *)
Fixpoint keepalive_times (start interval_ms : Z) (n : nat) : list Z :=
  match n with
  | O => []
  | S n' =>
      let t := start + keepalive_interval interval_ms in
      t :: keepalive_times t interval_ms n'
  end.

(** *** Group-chat generation gate *)

(** What a member does with an inbound group message. *)
Inductive gcm_outcome : Type :=
  | Accepted
  | Dropped
  | FetchRequested.

(** Modelled from the spec: the state of a member of a group chat that the
    gate reads and writes: the cached generation of the metadata, the
    messages accepted so far, and the metadata-fetch requests sent to the
    admin (the group ids asked for). *)
Record gc_member : Type := mkMember {
  cached_generation : N;
  accepted : list clientrpc.GroupMessage;
  fetch_requests : list N
}.

(** Modelled from the spec: the handler of inbound group messages is
    missing. "Inbound GC messages are accepted only if their generation
    equals the receiver's current value; lower generations are dropped,
    higher generations trigger a metadata-fetch request." *)
Definition receive_gcm (m : clientrpc.GroupMessage) (st : gc_member)
  : gcm_outcome * gc_member :=
  let g := clientrpc.gm_generation m in
  if (g =? cached_generation st)%N then
    (Accepted,
     mkMember (cached_generation st) (accepted st ++ [m]) (fetch_requests st))
  else if (g <? cached_generation st)%N then (Dropped, st)
  else
    (FetchRequested,
     mkMember (cached_generation st) (accepted st)
       (fetch_requests st ++ [clientrpc.gm_id m])).

(** *** Local delivery: sequence ids and acks *)

(** Modelled from the spec: the record local delivery persists for an
    event, [{stream, sequence_id, payload_ref, acked}], inside its stream. *)
Record delivery_record : Type := mkRecord {
  sequence_id : N;
  payload_ref : N;
  acked : bool
}.

(** Modelled from the spec: the durable state of one consumer stream: the
    next sequence id to assign, the acked high-water mark, and the records
    not yet compacted, oldest first. *)
Record stream : Type := mkStream {
  next_seq : N;
  high_water : N;
  records : list delivery_record
}.

(** A stream that has emitted nothing; the first id is 1. *)
Definition new_stream : stream := mkStream 1 0 [].

(** Modelled from the spec: steps 1 and 2 of local delivery: the next
    sequence id is assigned and the record is persisted, not acked. *)
Definition emit (ref : N) (st : stream) : stream :=
  mkStream (next_seq st + 1) (high_water st)
    (records st ++ [mkRecord (next_seq st) ref false]).

Definition mark_acked (s : N) (r : delivery_record) : delivery_record :=
  if (sequence_id r <=? s)%N
  then mkRecord (sequence_id r) (payload_ref r) true
  else r.

(** Modelled from the spec: step 4, the ack operation behind [AckRequest]:
    "marks all records up to that ID acked"; the id acked up to is durably
    recorded as the high-water mark. *)
Definition ack (s : N) (st : stream) : stream :=
  mkStream (next_seq st) (N.max (high_water st) s)
    (mark_acked s <$> records st).

(** Modelled from the spec: "a compactor periodically drops acked
    records". *)
Definition compact (st : stream) : stream :=
  mkStream (next_seq st) (high_water st)
    (List.filter (λ r, negb (acked r)) (records st)).



(** The states a stream goes through: events are emitted, the consumer
    acks (an [AckRequest] carries any id), the compactor runs. *)
Inductive reachable : stream → Prop :=
  | reach_new : reachable new_stream
  | reach_emit ref st : reachable st → reachable (emit ref st)
  | reach_ack s st : reachable st → reachable (ack s st)
  | reach_compact st : reachable st → reachable (compact st).

(** The same, with a consumer that acks only ids that were assigned. *)
Inductive reachable_assigned : stream → Prop :=
  | assigned_new : reachable_assigned new_stream
  | assigned_emit ref st :
      reachable_assigned st → reachable_assigned (emit ref st)
  | assigned_ack s st :
      reachable_assigned st → (s < next_seq st)%N →
      reachable_assigned (ack s st)
  | assigned_compact st :
      reachable_assigned st → reachable_assigned (compact st).

(** A stream after three events, an ack of the second, and one more
    event. *)
Definition example_stream : stream :=
  emit 13 (ack 2 (emit 12 (emit 11 (emit 10 new_stream)))).


(** *** RV manager *)

(** The errors of [register]. *)
Inductive rv_error : Type :=
  | tag_collision.

(** Modelled from the spec: a subscription handler of the RV manager: one
    shot or persistent, with the identity of its callback. *)
Record handler : Type := mkHandler {
  handler_id : N;
  persistent : bool
}.

(** Modelled from the spec: the RV manager is missing. It owns the map from
    RV tags (32 bytes, as a number) to handlers, and "register(tag, handler)
    MUST NOT register a tag already present", which fails with
    [tag_collision]. *)
Definition register (tag : N) (h : handler) (m : gmap N handler)
  : gmap N handler * option rv_error :=
  match m !! tag with
  | Some _ => (m, Some tag_collision)
  | None => (<[tag := h]> m, None)
  end.

(** A tag map with one persistent and one one-shot handler. *)
Definition example_tags : gmap N handler :=
  {[ 1%N := mkHandler 100 true; 2%N := mkHandler 200 false ]}.

End core.

(** ** More of the terminal client: wrapping, embeds, confirmation *)

Module tui.
Import chatmsg.

(** A Go [int]: a result outside 64 bits wraps around. *)
Definition wrap64 (z : Z) : Z := (z + 2 ^ 63) mod 2 ^ 64 - 2 ^ 63.

(** [len(s)] of a string. *)
Definition len (s : string) : Z := Z.of_nat (String.length s).

(** The newline that [b.WriteRune] writes. *)
Definition newline : string := String (ascii_of_nat 10) EmptyString.

(** The elements of a line carry one payload each: a text, an embed, a
    mention or a url, or nothing at all. *)
Definition one_kind {embeddedArgs : Type} (el : chatMsgEl embeddedArgs) : bool :=
  match text el, embed el, mention el, url el with
  | _, None, None, None => true
  | EmptyString, Some _, None, None => true
  | EmptyString, None, Some _, None => true
  | EmptyString, None, None, Some _ => true
  | _, _, _, _ => false
  end.

(** The lines of a message put together again, a newline between them. *)
Fixpoint join_lines (ls : list string) : string :=
  match ls with
  | [] => ""
  | [l] => l
  | l :: rest => l ++ newline ++ join_lines rest
  end.

Section selection.

Context {embeddedArgs : Type}.

Definition set_selEmbed (n : Z) (cw : chatWindow embeddedArgs)
  : chatWindow embeddedArgs :=
  mkWindow (uid cw) (isGC cw) (msgs cw) (alias cw) (me cw) (gc cw)
    (selEmbedArgs cw) n (maxEmbeds cw) (unreadIdx cw).

(** [func (cw *chatWindow) changeSelectedEmbed]. *)
Definition changeSelectedEmbed (delta : Z) (cw : chatWindow embeddedArgs)
  : bool * chatWindow embeddedArgs :=
  if (selEmbed cw =? 0) && (delta <? 0) then (false, cw)
  else if (selEmbed cw >=? wrap64 (maxEmbeds cw - 1)) && (delta >? 0)
  then (false, cw)
  else (true, set_selEmbed (wrap64 (selEmbed cw + delta)) cw).

End selection.

(** The strings of a list, one after the other. *)
Definition concat_strings (ls : list string) : string :=
  foldr String.append "" ls.

(** A string that is empty or ends with a space. *)
Definition spaced (l : string) : Prop := l = "" ∨ ∃ p, l = p ++ " ".

(** Every string of the list but the last is [spaced]. *)
Fixpoint init_spaced (ws : list string) : Prop :=
  match ws with
  | [] => True
  | [_] => True
  | w :: rest => spaced w ∧ init_spaced rest
  end.

(** What the wrapped lines add to the builder: each line rendered, then a
    newline. *)
Definition rendered_lines (Render : string → string) (lines : list string)
  : string :=
  concat_strings ((λ l, Render l ++ newline) <$> lines).

(** [strings.SplitAfter(s, " ")]: the pieces of [s], each up to and with a
    space, and the rest after the last space. *)
Fixpoint SplitAfter_space (s : string) : list string :=
  match s with
  | EmptyString => [""]
  | String c rest =>
      if Ascii.eqb c " " then String c "" :: SplitAfter_space rest
      else
        match SplitAfter_space rest with
        | [] => [String c ""]
        | h :: t => String c h :: t
        end
  end.

Section wrapping.

(** [lipgloss.Style.Render] of the style in use. *)
Variable Render : string → string.

(** The body of the loop of [writeWrappedWithStyle]: the builder, the line
    and the offset after the word [w]. *)
Definition wrapWord (winW : Z) (st : string * string * Z) (w : string)
  : string * string * Z :=
  let '(b, line, offset) := st in
  let '(b, line, offset) :=
    if wrap64 (wrap64 (wrap64 (len line + offset) + len w) + 1) >? winW
    then (b ++ Render line ++ newline, "", 0)
    else (b, line, offset) in
  (b, line ++ w, offset).

(** [func writeWrappedWithStyle]: the text of the builder and the new
    offset. *)
Definition writeWrappedWithStyle (b : string) (offset winW : Z) (s : string)
  : string * Z :=
  let '(b, line, offset) :=
    foldl (wrapWord winW) (b, "", offset) (SplitAfter_space s) in
  (b ++ Render line, wrap64 (offset + len line)).

End wrapping.

(** [func writeWrappedURL]. *)
Definition writeWrappedURL (b : string) (offset winW : Z) (url_ : string)
  : string * Z :=
  let '(b, offset) :=
    if wrap64 (offset + len url_) >? winW then (b ++ newline, 0)
    else (b, offset) in
  let b := b ++ url_ in
  let offset := wrap64 (offset + len url_) in
  if offset >? winW then (b ++ newline, 0) else (b, offset).

(** The remainder of Go's [%], which takes the sign of the dividend. *)
Definition go_rem (a b : Z) : Z := Z.rem a b.

(** *** The window that requests receive capacity *)

(** [tea.KeyMsg.Type], as far as [Update] looks at it. *)
Inductive KeyType : Type :=
  | KeyF2
  | KeyOther.

Section update.

(** The form helper, the payment to confirm ([lnReqRecvConfirmPayment]) and
    the errors are declared in other files of the package. *)
Context {Form Policy Err : Type}.

(** [tea.Msg], by the types [Update] switches on; a key comes with its
    [Type] and its [String()]. *)
Inductive Msg : Type :=
  | KeyMsg (ty : KeyType) (str : string)
  | WindowSizeMsg (Width Height : Z)
  | ConfirmPayment (p : Policy)
  | RecvResult (err : option Err)
  | SubmitForm
  | OtherMsg.

(** [type lnRequestRecvWindow struct], with the two fields of the
    application state that [Update] writes. *)
Record lnRequestRecvWindow : Type := mkRecvWindow {
  form : Form;
  requestErr : option Err;
  confirming : bool;
  confirmIdx : Z;
  requesting : bool;
  reqPolicy : option Policy;
  isManual : bool;
  as_winW : Z;
  as_winH : Z
}.

Definition set_form (f : Form) (pw : lnRequestRecvWindow) :=
  mkRecvWindow f (requestErr pw) (confirming pw) (confirmIdx pw)
    (requesting pw) (reqPolicy pw) (isManual pw) (as_winW pw) (as_winH pw).

Definition set_confirming (b : bool) (pw : lnRequestRecvWindow) :=
  mkRecvWindow (form pw) (requestErr pw) b (confirmIdx pw)
    (requesting pw) (reqPolicy pw) (isManual pw) (as_winW pw) (as_winH pw).

Definition set_confirmIdx (n : Z) (pw : lnRequestRecvWindow) :=
  mkRecvWindow (form pw) (requestErr pw) (confirming pw) n
    (requesting pw) (reqPolicy pw) (isManual pw) (as_winW pw) (as_winH pw).

Definition set_request (err : option Err) (r : bool)
    (pw : lnRequestRecvWindow) :=
  mkRecvWindow (form pw) err (confirming pw) (confirmIdx pw)
    r (reqPolicy pw) (isManual pw) (as_winW pw) (as_winH pw).

Definition set_reqPolicy (p : Policy) (pw : lnRequestRecvWindow) :=
  mkRecvWindow (form pw) (requestErr pw) (confirming pw) (confirmIdx pw)
    (requesting pw) (Some p) (isManual pw) (as_winW pw) (as_winH pw).

Definition set_win (w h : Z) (pw : lnRequestRecvWindow) :=
  mkRecvWindow (form pw) (requestErr pw) (confirming pw) (confirmIdx pw)
    (requesting pw) (reqPolicy pw) (isManual pw) w h.

(** The model [Update] returns: the shutdown state of [maybeShutdown], the
    main window, a new window of this kind, or this window. *)
Inductive Model : Type :=
  | ShutdownState
  | MainWindowState
  | NewRecvWindow (manual : bool)
  | RecvWindow (pw : lnRequestRecvWindow).

(** Whether [maybeShutdown] returns a state, and [isEscMsg]. *)
Variable maybeShutdown : Msg → bool.
Variable isEscMsg : Msg → bool.

(** [pw.form.Update] on a key, and the value of the input of index [n]
    read and set. *)
Variable form_Update : KeyType → string → Form → Form.
Variable Value : nat → Form → string.
Variable SetValue : nat → string → Form → Form.

(** The error of [os.ReadFile]. *)
Variable ReadFile : string → option Err.

(** [func (pw *lnRequestRecvWindow) request]: the window after it; the
    request itself runs in a goroutine when there is no error. *)
Definition request (pw : lnRequestRecvWindow) : lnRequestRecvWindow :=
  set_request
    (if isManual pw then ReadFile (Value 2 (form pw)) else None) true pw.

(** [func (pw lnRequestRecvWindow) Update]: the model it returns, and the
    answer [confirmResponse] sends on the reply channel, if any. The
    command it returns is left out. *)
Definition Update (msg : Msg) (pw : lnRequestRecvWindow)
  : Model * option bool :=
  if maybeShutdown msg then (ShutdownState, None)
  else if isEscMsg msg then (MainWindowState, None)
  else
    let generic : Model * option bool + lnRequestRecvWindow :=
      match msg with
      | KeyMsg KeyF2 _ => inl (NewRecvWindow true, None)
      | WindowSizeMsg w h => inl (RecvWindow (set_win w h pw), None)
      | ConfirmPayment p =>
          inr (set_confirming true (set_confirmIdx 0 (set_reqPolicy p pw)))
      | RecvResult err =>
          let pw := set_confirming false (set_request err false pw) in
          match err with
          | None => inl (MainWindowState, None)
          | Some _ => inr pw
          end
      | _ => inr pw
      end in
    match generic with
    | inl r => r
    | inr pw =>
        if confirming pw then
          match msg with
          | KeyMsg _ str =>
              if String.eqb str "tab" || String.eqb str "right" then
                (RecvWindow
                   (set_confirmIdx (go_rem (wrap64 (confirmIdx pw + 1)) 2) pw),
                 None)
              else if String.eqb str "shift+tab" || String.eqb str "left" then
                (RecvWindow
                   (set_confirmIdx
                      (Z.land (go_rem (wrap64 (confirmIdx pw - 1)) 2) 1) pw),
                 None)
              else if String.eqb str "enter" then
                (RecvWindow (set_confirming false pw),
                 Some (confirmIdx pw =? 0))
              else (RecvWindow pw, None)
          | _ => (RecvWindow pw, None)
          end
        else
          match msg with
          | SubmitForm => (RecvWindow (request pw), None)
          | KeyMsg ty str =>
              if isManual pw then
                let oldServer := Value 1 (form pw) in
                let f := form_Update ty str (form pw) in
                let newServer := Value 1 f in
                let f :=
                  if negb (String.eqb oldServer newServer)
                  then SetValue 2 "" f else f in
                (RecvWindow (set_form f pw), None)
              else
                (RecvWindow (set_form (form_Update ty str (form pw)) pw),
                 None)
          | _ => (RecvWindow pw, None)
          end
    end.

(** The window after a sequence of messages, as long as [Update] returns
    this window; [None] once it returns another model. *)
Fixpoint Updates (msgs : list Msg) (pw : lnRequestRecvWindow)
  : option lnRequestRecvWindow :=
  match msgs with
  | [] => Some pw
  | msg :: rest =>
      match (Update msg pw).1 with
      | RecvWindow pw' => Updates rest pw'
      | _ => None
      end
  end.

End update.

Arguments Msg : clear implicits.
Arguments lnRequestRecvWindow : clear implicits.
Arguments Model : clear implicits.

(** The window [newLNRequestRecvWindow] returns, over a form without
    content, and the keys that leave it. *)
Definition new_recv_window (manual : bool)
  : lnRequestRecvWindow unit unit unit :=
  mkRecvWindow tt None false 0 false None manual 80 24.

Definition quit_key (msg : Msg unit unit) : bool :=
  match msg with
  | KeyMsg _ str => String.eqb str "ctrl+c"
  | _ => false
  end.

Definition esc_key (msg : Msg unit unit) : bool :=
  match msg with
  | KeyMsg _ str => String.eqb str "esc"
  | _ => false
  end.

(** A payment to confirm comes in, then three keys and a resize. *)
Definition confirm_msgs : list (Msg unit unit) :=
  [ ConfirmPayment tt; KeyMsg KeyOther "tab"; KeyMsg KeyOther "left";
    KeyMsg KeyOther "shift+tab"; WindowSizeMsg 100 30 ].

(** A window with three embeds, the second one selected. *)
Definition embeds_window : chatWindow string :=
  mkWindow [] false [] "" "bob" [] "" 1 3 0.

(** A help message, as [appendMsg] would get it. *)
Definition help_msg : chatMsg string :=
  mkMsg 7 false "" [[textEl "usage"]] false false true "" None None.

(** A message that was received. *)
Definition recvd_msg : chatMsg string :=
  mkMsg 8 false "" [[textEl "hi"]] false false false "alice" None None.

End tui.

(** ** Rendering the chat window *)

Module render.
Import chatmsg tui.

(** [lipgloss.Style], seen through [Render]. *)
Definition Style : Type := string → string.

(** The styles of [type theme] that the renderer uses. *)
Record theme : Type := mkTheme {
  st_timestamp : Style;
  st_nick : Style;
  st_nickMe : Style;
  st_nickGC : Style;
  st_msg : Style;
  st_help : Style;
  st_unsent : Style;
  st_mention : Style;
  st_embed : Style;
  st_focused : Style
}.

(** [utf8.RuneCount] on well-formed UTF-8: the bytes that do not continue a
    rune. *)
Fixpoint RuneCount (s : string) : Z :=
  match s with
  | EmptyString => 0
  | String c rest =>
      let n := nat_of_ascii c in
      (if (128 <=? n)%nat && (n <? 192)%nat then 0 else 1) + RuneCount rest
  end.

Fixpoint repeat_string (s : string) (n : nat) : string :=
  match n with
  | O => ""
  | S n' => s ++ repeat_string s n'
  end.

(** [strings.Repeat]; [None] is the panic on a negative count or on a
    length that overflows. *)
Definition Repeat (s : string) (count : Z) : option string :=
  if count <? 0 then None
  else if len s * count >=? 2 ^ 63 then None
  else Some (repeat_string s (Z.to_nat count)).

(** The line that goes before the first unread message. *)
Definition unreadMsg : string := " unread ――――――――".

Section rendering.

Context {embeddedArgs : Type}.

(** [msg.ts.Format("15:04:05 ")] and [lipgloss.Width]. *)
Variable formatTime : Z → string.
Variable Width : string → Z.

(** The text [renderMsg] shows for an embed: built from the arguments of
    the embed, the files the client has and the exchange rate. *)
Variable embedLabel : embeddedArgs → string.

(** The assignment [args.uid = msg.fromUID]. *)
Variable set_uid : option UserID → embeddedArgs → embeddedArgs.

(** [clientintf.PostTitle], the attribute [rpc.RMPIdentifier] and the verb
    [%q] of [fmt.Sprintf]. *)
Variable PostTitle : PostMetadata → string.
Variable RMPIdentifier : string.
Variable quoted : string → string.

Definition set_maxEmbeds (n : Z) (cw : chatWindow embeddedArgs)
  : chatWindow embeddedArgs :=
  mkWindow (uid cw) (isGC cw) (msgs cw) (alias cw) (me cw) (gc cw)
    (selEmbedArgs cw) (selEmbed cw) n (unreadIdx cw).

Definition set_selEmbedArgs (a : embeddedArgs) (cw : chatWindow embeddedArgs)
  : chatWindow embeddedArgs :=
  mkWindow (uid cw) (isGC cw) (msgs cw) (alias cw) (me cw) (gc cw)
    a (selEmbed cw) (maxEmbeds cw) (unreadIdx cw).

Definition set_elements (els : list (list (chatMsgEl embeddedArgs)))
    (m : chatMsg embeddedArgs) : chatMsg embeddedArgs :=
  mkMsg (ts m) (sent m) (msg m) els (mine m) (internal m) (help m) (from m)
    (fromUID m) (post m).

(** [func (cw *chatWindow) renderPost]: what it adds to the builder. The
    post of the message is not nil. *)
Definition renderPost (styles : theme) (b : string)
    (cw : chatWindow embeddedArgs) (m : chatMsg embeddedArgs) : string :=
  let b := b ++ st_timestamp styles (formatTime (ts m)) in
  let b := b ++ "<" in
  let b := b ++ st_nick styles (alias cw) in
  let b := b ++ "> " in
  let title :=
    match post m with
    | Some p =>
        let title := PostTitle p in
        if String.eqb title ""
        then default "" (pm_attributes p !! RMPIdentifier)
        else title
    | None => ""
    end in
  let b := b ++ st_help styles ("Received post " ++ quoted title) in
  b ++ newline.

(** The body of the loop of [renderMsg] over the elements of a line: the
    builder, the offset and the window after the element, and the element
    itself, whose embed has its uid set when it is the selected one. *)
Definition renderEl (winW : Z) (styles as_styles : theme) (style : Style)
    (sender : option UserID) (st : string * Z * chatWindow embeddedArgs)
    (el : chatMsgEl embeddedArgs)
  : string * Z * chatWindow embeddedArgs * chatMsgEl embeddedArgs :=
  let '(b, offset, cw) := st in
  match embed el with
  | Some args =>
      let s := embedLabel args in
      let '(estyle, args, cw) :=
        if maxEmbeds cw =? selEmbed cw
        then (st_focused as_styles, set_uid sender args,
              set_selEmbedArgs (set_uid sender args) cw)
        else (st_embed as_styles, args, cw) in
      let cw := set_maxEmbeds (wrap64 (maxEmbeds cw + 1)) cw in
      let '(b, offset) := writeWrappedWithStyle estyle b offset winW s in
      (b, offset, cw, mkEl (text el) (Some args) (mention el) (url el))
  | None =>
      match mention el with
      | Some m =>
          let '(b, offset) :=
            writeWrappedWithStyle (st_mention styles) b offset winW m in
          (b, offset, cw, el)
      | None =>
          match url el with
          | Some u =>
              let '(b, offset) := writeWrappedURL b offset winW u in
              (b, offset, cw, el)
          | None =>
              let '(b, offset) :=
                writeWrappedWithStyle style b offset winW (text el) in
              (b, offset, cw, el)
          end
      end
  end.

(** The elements of one line, in order. *)
Fixpoint renderLine (winW : Z) (styles as_styles : theme) (style : Style)
    (sender : option UserID) (st : string * Z * chatWindow embeddedArgs)
    (line : list (chatMsgEl embeddedArgs))
  : string * Z * chatWindow embeddedArgs * list (chatMsgEl embeddedArgs) :=
  match line with
  | [] => (st, [])
  | el :: rest =>
      let '(st, el) := renderEl winW styles as_styles style sender st el in
      let '(st, rest) := renderLine winW styles as_styles style sender st rest in
      (st, el :: rest)
  end.

(** The lines of a message, each followed by a newline. *)
Fixpoint renderLines (winW : Z) (styles as_styles : theme) (style : Style)
    (sender : option UserID) (st : string * Z * chatWindow embeddedArgs)
    (lines : list (list (chatMsgEl embeddedArgs)))
  : string * Z * chatWindow embeddedArgs * list (list (chatMsgEl embeddedArgs)) :=
  match lines with
  | [] => (st, [])
  | line :: rest =>
      let '(b, _, cw, line) :=
        renderLine winW styles as_styles style sender st line in
      let '(st, rest) :=
        renderLines winW styles as_styles style sender (b ++ newline, 0, cw) rest in
      (st, line :: rest)
  end.

(** [func (cw *chatWindow) renderMsg]: the builder, the window and the
    message after it. *)
Definition renderMsg (winW : Z) (styles as_styles : theme) (b : string)
    (cw : chatWindow embeddedArgs) (m : chatMsg embeddedArgs)
  : string * chatWindow embeddedArgs * chatMsg embeddedArgs :=
  let prefix := st_timestamp styles (formatTime (ts m)) in
  let prefix :=
    if help m then prefix ++ " "
    else if internal m then prefix ++ "* "
    else
      let prefix := prefix ++ "<" in
      let prefix :=
        if mine m then prefix ++ st_nickMe styles (me cw)
        else if isGC cw then prefix ++ st_nickGC styles (from m)
        else prefix ++ st_nick styles (from m) in
      prefix ++ "> " in
  let style :=
    if help m then st_help styles
    else if (mine m || internal m) && negb (sent m) then st_unsent styles
    else st_msg styles in
  let b := b ++ prefix in
  let offset := Width prefix in
  let '(b, _, cw, els) :=
    renderLines winW styles as_styles style (fromUID m) (b, offset, cw)
      (elements m) in
  (b, cw, set_elements els m).

(** The loop of [renderContent] from the message of index [i] on; [None]
    is the panic of [strings.Repeat]. *)
Fixpoint renderFrom (winW : Z) (styles as_styles : theme) (i : Z)
    (b : string) (cw : chatWindow embeddedArgs)
    (ms : list (chatMsg embeddedArgs))
  : option (string * chatWindow embeddedArgs * list (chatMsg embeddedArgs)) :=
  match ms with
  | [] => Some (b, cw, [])
  | m :: rest =>
      b ← (if i =? unreadIdx cw then
             let l := RuneCount unreadMsg in
             dashes ← Repeat "―" (wrap64 (winW - l));
             Some (b ++ dashes ++ unreadMsg ++ newline)
           else Some b);
      match post m with
      | Some _ =>
          '(b, cw, rest) ←
            renderFrom winW styles as_styles (i + 1)
              (renderPost styles b cw m) cw rest;
          Some (b, cw, m :: rest)
      | None =>
          let '(b, cw, m) := renderMsg winW styles as_styles b cw m in
          '(b, cw, rest) ←
            renderFrom winW styles as_styles (i + 1) b cw rest;
          Some (b, cw, m :: rest)
      end
  end.

(** [func (cw *chatWindow) renderContent]: the text, and the window after
    it. *)
Definition renderContent (winW : Z) (styles as_styles : theme)
    (cw : chatWindow embeddedArgs)
  : option (string * chatWindow embeddedArgs) :=
  let cw := set_maxEmbeds 0 cw in
  '(b, cw, ms) ← renderFrom winW styles as_styles 0 "" cw (msgs cw);
  Some (b, set_msgs ms cw).

(** The embeds of the elements of a message. *)
Definition embeds_of (m : chatMsg embeddedArgs) : list embeddedArgs :=
  omap embed (mjoin (elements m)).

(** The embeds [renderContent] goes through, with the sender of each: the
    ones of the messages that are not posts. *)
Definition shown_embeds (ms : list (chatMsg embeddedArgs))
  : list (option UserID * embeddedArgs) :=
  m ← ms;
  match post m with
  | Some _ => []
  | None => (λ a, (fromUID m, a)) <$> embeds_of m
  end.

(** The bookkeeping of [renderMsg] over a list of embeds with their
    senders: [maxEmbeds] counts them, and [selEmbedArgs] takes the embed
    that is met when the count is the selection. *)
Fixpoint select_embeds (sel : Z) (st : Z * embeddedArgs)
    (es : list (option UserID * embeddedArgs)) : Z * embeddedArgs :=
  match es with
  | [] => st
  | e :: rest =>
      select_embeds sel
        (wrap64 (st.1 + 1), if st.1 =? sel then set_uid e.1 e.2 else st.2)
        rest
  end.

(** Only [maxEmbeds] and [selEmbedArgs] differ between two windows. *)
Definition same_but_embeds (cw cw' : chatWindow embeddedArgs) : Prop :=
  cw' = set_selEmbedArgs (selEmbedArgs cw') (set_maxEmbeds (maxEmbeds cw') cw).

End rendering.

(** A theme that renders every text as it is. *)
Definition plain_theme : theme :=
  mkTheme id id id id id id id id id id.

End render.

(** ** The helpers of the end-to-end tests *)

Module e2etests.

(** The loop of [assertClientsKXd] from poll [i] on, with [n] polls left:
    [alice_sees i] and [bob_sees i] are what [UserExists] returns at poll
    [i]. The result is the two flags after the loop. *)
Fixpoint pollKXd (alice_sees bob_sees : nat → bool) (n i : nat)
    (gotAlice gotBob : bool) : bool * bool :=
  match n with
  | O => (gotAlice, gotBob)
  | S n' =>
      if negb gotAlice || negb gotBob then
        pollKXd alice_sees bob_sees n' (S i)
          (if alice_sees i then true else gotAlice)
          (if bob_sees i then true else gotBob)
      else (gotAlice, gotBob)
  end.

(** [func assertClientsKXd]: [true] when the test goes on, [false] when it
    stops with [t.Fatalf]. *)
Definition assertClientsKXd (alice_sees bob_sees : nat → bool) : bool :=
  let '(gotAlice, gotBob) := pollKXd alice_sees bob_sees 100 0 false false in
  negb (negb gotAlice || negb gotBob).

(** The errors of [assertClientUpToDate]. *)
Inductive uptodate_error : Type :=
  | RVsNotUpToDate
  | RMQNotEmpty.

(** One pass of the loop of [assertClientUpToDate]: [rvs] is what
    [RVsUpToDate] returns and [q], [s] what [RMQLen] returns. *)
Definition checkUpToDate (rvs : bool) (q s : Z) : option uptodate_error :=
  if negb rvs then Some RVsNotUpToDate
  else if negb (tui.wrap64 (q + s) =? 0) then Some RMQNotEmpty
  else None.

(** The loop of [assertClientUpToDate] from poll [i] on, with [n] polls
    left. *)
Fixpoint pollUpToDate (obs : nat → bool * Z * Z) (n i : nat)
    (err : option uptodate_error) : option uptodate_error :=
  match n with
  | O => err
  | S n' =>
      let '(rvs, q, s) := obs i in
      pollUpToDate obs n' (S i) (checkUpToDate rvs q s)
  end.

(** [func assertClientUpToDate]: the error [t.Fatal] gets, if any. *)
Definition assertClientUpToDate (obs : nat → bool * Z * Z)
  : option uptodate_error :=
  pollUpToDate obs 200 0 None.

End e2etests.

(** ** Example values *)

Module examples.
Import inidb chatmsg tui render.

(** A message of two lines, with a mention of bob and a url. *)
Definition two_lines : string :=
  "hi bob, see https://bisonrelay.org" ++ newline ++ "bye".

(** Embed arguments that keep the uid and the name of the file. *)
Definition file_args : Type := option UserID * string.

Definition file_set_uid (u : option UserID) (a : file_args) : file_args :=
  (u, a.2).

Definition file_el (name : string) : chatMsgEl file_args :=
  mkEl "" (Some (None, name)) None None.

(** A post, and a message of alice with two embeds on two lines. *)
Definition post_msg : chatMsg file_args :=
  mkMsg 8 false "" [] false false false "alice" None
    (Some (mkPostMetadata 1 {[ "title" := "news" ]})).

Definition embeds_msg : chatMsg file_args :=
  mkMsg 9 false ""
    [[textEl "see "; file_el "a.png"]; [file_el "b.png"]]
    false false false "alice" (Some [Byte.x01]) None.

(** A window with the two, the message unread and its second embed
    selected. *)
Definition render_window : chatWindow file_args :=
  mkWindow [] false [post_msg; embeds_msg] "alice" "bob" [] (None, "") 1 0 1.

(** [renderContent] on the window, with a fixed clock and plain styles. *)
Definition render_example (winW : Z) (cw : chatWindow file_args)
  : option (string * chatWindow file_args) :=
  renderContent (λ _, "12:00:00 ") len snd file_set_uid
    (λ p, default "" (pm_attributes p !! "title")) "rmid" id
    winW plain_theme plain_theme cw.

End examples.

(** * Theorems *)

(** ** Strings *)

Section strings.

Lemma append_cons (x : ascii) (a b : string) :
  String x a ++ b = String x (a ++ b).
Proof. reflexivity. Qed.

Lemma append_nil_l (b : string) : "" ++ b = b.
Proof. reflexivity. Qed.

Lemma prefix_app (a b : string) : String.prefix a (a ++ b) = true.
Proof.
  induction a as [|c a IH]; [by destruct b|].
  rewrite append_cons. simpl. by destruct (ascii_dec c c).
Qed.

Lemma prefix_dot_self (s : string) : String.prefix (s ++ ".") s = false.
Proof.
  induction s as [|c s IH]; [done|].
  rewrite append_cons. simpl. by destruct (ascii_dec c c).
Qed.

Lemma append_assoc (a b c : string) : (a ++ b) ++ c = a ++ b ++ c.
Proof.
  induction a as [|x a IH]; [done|]. by rewrite !append_cons, IH.
Qed.

Lemma length_append (a b : string) :
  String.length (a ++ b) = (String.length a + String.length b)%nat.
Proof.
  induction a as [|x a IH]; [done|]. rewrite append_cons. simpl. by rewrite IH.
Qed.

Lemma append_nil_r (a : string) : a ++ "" = a.
Proof. induction a as [|x a IH]; [done|]. by rewrite append_cons, IH. Qed.

Lemma substring_full (s : string) : substring 0 (String.length s) s = s.
Proof. induction s as [|c s IH]; simpl; [done|]. by rewrite IH. Qed.

(** Two slices that meet make up the slice that spans them. *)
Lemma substring_split (s : string) (lo mid hi : nat) :
  (lo ≤ mid)%nat → (mid ≤ hi)%nat → (hi ≤ String.length s)%nat →
  substring lo (mid - lo) s ++ substring mid (hi - mid) s
  = substring lo (hi - lo) s.
Proof.
  revert lo mid hi. induction s as [|c s IH]; intros lo mid hi Hlm Hmh Hhs.
  - simpl in Hhs. assert (hi = 0%nat) as -> by lia.
    assert (mid = 0%nat) as -> by lia. assert (lo = 0%nat) as -> by lia.
    done.
  - simpl in Hhs. destruct lo as [|lo].
    + destruct mid as [|mid].
      * rewrite !Nat.sub_0_r. simpl substring at 1. by rewrite append_nil_l.
      * destruct hi as [|hi]; [lia|].
        rewrite !Nat.sub_0_r. simpl substring.
        rewrite append_cons. f_equal.
        specialize (IH 0%nat mid hi). rewrite !Nat.sub_0_r in IH.
        apply IH; lia.
    + destruct mid as [|mid]; [lia|]. destruct hi as [|hi]; [lia|].
      simpl. apply IH; lia.
Qed.

End strings.

(** ** The INI database *)

Section inidb_tables.
Import inidb.

(** C8. On a table that is absent from the database, [Set], [Del] and
    [DelTable] each return [ErrNotFound] and the database they leave is the
    one they found: same tables, same records, same dirty flag. *)
Theorem absent_table_ErrNotFound (i : INIDB) (t key value : string) :
  tables i !! t = None →
  Set_ t key value i = (i, Some ErrNotFound) ∧
  Del t key i = (i, Some ErrNotFound) ∧
  DelTable t i = (i, Some ErrNotFound).
Proof.
  intros Habs. unfold Set_, Del, DelTable. rewrite Habs. done.
Qed.

Lemma absent_table_ErrNotFound_witness :
  tables empty_db !! "peers" = None ∧
  Set_ "peers" "nick" "bob" empty_db = (empty_db, Some ErrNotFound) ∧
  Del "peers" "nick" empty_db = (empty_db, Some ErrNotFound) ∧
  DelTable "peers" empty_db = (empty_db, Some ErrNotFound).
Proof.
  split; [reflexivity|].
  apply (absent_table_ErrNotFound empty_db "peers" "nick" "bob"). reflexivity.
Defined.

End inidb_tables.

Section inidb_save.
Import inidb.

Lemma foldl_Remove_lookup (e : sys) (vs : list string) (d : gmap string string)
    (k : string) :
  foldl (λ d' v, Remove e v d') d vs !! k =
    if decide (k ∈ vs ∧ Remove_fails e k = false) then None else d !! k.
Proof.
  revert d. induction vs as [|v vs IH]; intros d; cbn [foldl].
  - destruct (decide (k ∈ [] ∧ Remove_fails e k = false)) as [[H _]|]; [|done].
    by apply elem_of_nil in H.
  - rewrite IH. unfold Remove.
    destruct (decide (k ∈ vs ∧ Remove_fails e k = false)) as [[Hin Hok]|Hn].
    + rewrite decide_True; [done|]. split; [by right | done].
    + destruct (decide (k = v)) as [->|Hne].
      * destruct (Remove_fails e v) eqn:Hf.
        -- rewrite decide_False; [done|]. intros [_ ?]. congruence.
        -- rewrite decide_True; [|split; [by left | done]].
           apply lookup_delete_eq.
      * assert (Hd : (if Remove_fails e v then d else delete v d) !! k = d !! k).
        { destruct (Remove_fails e v); [done|]. by apply lookup_delete_ne. }
        rewrite Hd. rewrite decide_False; [done|].
        intros [[?|?]%elem_of_cons ?]; [done|]. by apply Hn.
Qed.

Lemma ReadDir_Permutation (d : gmap string string) :
  ReadDir d ≡ₚ (map_to_list d).*1.
Proof. apply merge_sort_Permutation. Qed.

Lemma elem_of_ReadDir (d : gmap string string) (k : string) :
  k ∈ ReadDir d ↔ is_Some (d !! k).
Proof.
  rewrite ReadDir_Permutation, list_elem_of_fmap. split.
  - intros [[k' c] [-> Hin]]. apply elem_of_map_to_list in Hin. by exists c.
  - intros [c Hc]. exists (k, c). split; [done|]. by apply elem_of_map_to_list.
Qed.

Lemma NoDup_ReadDir (d : gmap string string) : NoDup (ReadDir d).
Proof. rewrite ReadDir_Permutation. apply NoDup_fst_map_to_list. Qed.

Lemma elem_of_backups (fname : string) (d : gmap string string) (k : string) :
  k ∈ backups fname d ↔ is_Some (d !! k) ∧ String.prefix (fname ++ ".") k = true.
Proof.
  unfold backups. rewrite list_elem_of_In, filter_In, <- list_elem_of_In.
  by rewrite elem_of_ReadDir.
Qed.

Lemma NoDup_backups (fname : string) (d : gmap string string) :
  NoDup (backups fname d).
Proof.
  unfold backups. apply NoDup_ListNoDup, List.NoDup_filter, NoDup_ListNoDup.
  apply NoDup_ReadDir.
Qed.




(** [prune] removes backups only. *)
Lemma prune_lookup_other (e : sys) (i : INIDB) (d : gmap string string)
    (k : string) :
  String.prefix (filename i ++ ".") k = false →
  (prune e i d).1 !! k = d !! k.
Proof.
  intros Hk. unfold prune. repeat case_match; simpl; try done.
  rewrite foldl_Remove_lookup.
  match goal with
  | |- context [decide ?P] => destruct (decide P) as [[Hin _]|]; [|done]
  end.
  apply elem_of_take in Hin as (? & Hin & _).
  apply list_elem_of_lookup_2, list_elem_of_In, filter_In in Hin.
  destruct Hin as [_ Hin]. congruence.
Qed.

Lemma StronglySorted_List_filter {A} (R : relation A) (f : A → bool) (l : list A) :
  StronglySorted R l → StronglySorted R (List.filter f l).
Proof.
  induction 1 as [|x l Hl IH Hx]; simpl; [constructor|].
  destruct (f x); [|done]. constructor; [done|].
  apply Forall_forall. intros y Hy%list_elem_of_In%filter_In.
  destruct Hy as [Hy _]. apply list_elem_of_In in Hy.
  by apply (proj1 (Forall_forall _ _) Hx).
Qed.

Lemma StronglySorted_backups (fname : string) (d : gmap string string) :
  StronglySorted String.le (backups fname d).
Proof.
  unfold backups, ReadDir.
  apply StronglySorted_List_filter, StronglySorted_merge_sort; apply _.
Qed.


(** *** The name of the temporary file *)

Lemma to_uint_nonnil (n : N) : N.to_uint n ≠ Decimal.Nil.
Proof.
  destruct n as [|p]; [done|]. apply DecimalPos.Unsigned.to_uint_nonnil.
Qed.

(** The digits of a number start with a digit: neither a dot nor a star. *)
Lemma uitoa_digit (n : N) :
  ∃ c r, uitoa n = String c r ∧ c ≠ "."%char ∧ c ≠ "*"%char.
Proof.
  unfold uitoa. pose proof (to_uint_nonnil n) as Hn.
  destruct (N.to_uint n) as [|u|u|u|u|u|u|u|u|u|u]; [done|..];
    simpl; eexists _, _; (split; [reflexivity|]); by split.
Qed.

Lemma cut_last_star_spec (s p q : string) :
  cut_last_star s = Some (p, q) → s = p ++ "*" ++ q.
Proof.
  revert p q. induction s as [|c s IH]; intros p q; simpl; [done|].
  destruct (cut_last_star s) as [[p' q']|].
  - intros [= <- <-]. rewrite append_cons. f_equal. by apply IH.
  - destruct (Ascii.eqb_spec c "*") as [->|]; [|done]. by intros [= <- <-].
Qed.

Lemma prefix_app_l (a b c : string) :
  String.prefix (a ++ b) (a ++ c) = String.prefix b c.
Proof.
  induction a as [|x a IH]; [done|]. rewrite !append_cons. simpl.
  by destruct (ascii_dec x x).
Qed.

Lemma prefix_cons_ne (a b : ascii) (s t : string) :
  a ≠ b → String.prefix (String a s) (String b t) = false.
Proof. intros H. simpl. by destruct (ascii_dec a b). Qed.

Lemma CreateTemp_loop_spec (rnd : nat → N) (p q : string)
    (d d1 : gmap string string) (tries k : nat) (f : string) :
  CreateTemp_loop rnd p q d tries k = Some (f, d1) →
  d !! f = None ∧ d1 = <[f := ""]> d ∧ ∃ j, f = p ++ uitoa (rnd j) ++ q.
Proof.
  revert k. induction tries as [|tries IH]; intros k; simpl; [done|].
  destruct (d !! (p ++ uitoa (rnd k) ++ q)) eqn:Hk; [apply IH|].
  intros [= <- <-]. repeat split; try done. by exists k.
Qed.

(** The file [os.CreateTemp] makes is new in the directory and empty; its
    name is not the name of the database and does not start like the name
    of a backup. *)
Lemma CreateTemp_spec (e : sys) (pattern f : string)
    (d d1 : gmap string string) :
  CreateTemp e pattern d = Some (f, d1) →
  d !! f = None ∧ d1 = <[f := ""]> d ∧ f ≠ pattern ∧
  String.prefix (pattern ++ ".") f = false.
Proof.
  unfold CreateTemp, prefixAndSuffix.
  destruct (has_separator pattern); [done|].
  destruct (cut_last_star pattern) as [[p q]|] eqn:Hcut.
  - apply cut_last_star_spec in Hcut as ->.
    intros (Hfree & -> & j & ->)%CreateTemp_loop_spec.
    destruct (uitoa_digit (nextRandom e j)) as (c & r & Hu & _ & Hstar).
    rewrite Hu in *. split; [done|]. split; [done|]. split.
    + intros E. apply (inj (String.app p)) in E. rewrite !append_cons in E.
      by injection E.
    + rewrite append_assoc, prefix_app_l, !append_cons.
      apply prefix_cons_ne. congruence.
  - intros (Hfree & -> & j & ->)%CreateTemp_loop_spec.
    destruct (uitoa_digit (nextRandom e j)) as (c & r & Hu & Hdot & _).
    rewrite Hu in *. split; [done|]. split; [done|]. split.
    + intros E. rewrite <- (append_nil_r pattern) in E at 2.
      apply (inj (String.app pattern)) in E. by rewrite append_cons in E.
    + rewrite prefix_app_l, !append_cons.
      apply prefix_cons_ne. congruence.
Qed.

End inidb_save.

Section inidb_save_main.
Import inidb.

Lemma prefix_backupName (fname now : string) :
  String.prefix (fname ++ ".") (backupName fname now) = true.
Proof. unfold backupName. rewrite <- append_assoc. apply prefix_app. Qed.



End inidb_save_main.

Section inidb_save_examples.
Import inidb.


(** The example, evaluated: the two newest of the four backups remain. *)
Example Save_example_dir :
  let e := sys_at 123456 "20230104.000000.000000000" in
  (Save e example_db example_dir).1.2
  = {[ "config" := render e (tables example_db);
       "config.20230103.000000.000000000" := "b2";
       "config.20230104.000000.000000000" := "old";
       "other" := "o" ]}.
Proof. vm_compute. reflexivity. Qed.

(** The same save where the oldest backup cannot be removed: it stays, and
    three entries with the prefix remain for a depth of two. *)
Example Save_example_dir_locked :
  let e := sys_other "20230104.000000.000000000" in
  (Save e example_db example_dir).1.2
  = {[ "config" := render e (tables example_db);
       "config.20230101.000000.000000000" := "b0";
       "config.20230103.000000.000000000" := "b2";
       "config.20230104.000000.000000000" := "old";
       "other" := "o" ]}.
Proof. vm_compute. reflexivity. Qed.

(** A name with a star: the number goes in place of the star, and the name
    that is taken is passed over. *)
Example CreateTemp_star :
  CreateTemp (sys_other "20230104.000000.000000000") "conf*ig" star_dir
  = Some ("conf8ig", <["conf8ig" := ""]> star_dir).
Proof. vm_compute. reflexivity. Qed.

(** The text of the example database in the two orders. *)
Example render_example :
  render (sys_at 1 "") (tables example_db)
  = auto ++ nl ++ "[peers]" ++ nl ++ "alice = 1" ++ nl ++ "bob = 2" ++ nl ++ nl
    ++ "server = localhost" ++ nl ++ nl.
Proof. vm_compute. reflexivity. Qed.

Example render_example_other :
  render (sys_other "") (tables example_db)
  = auto ++ nl ++ "server = localhost" ++ nl ++ nl
    ++ "[peers]" ++ nl ++ "bob = 2" ++ nl ++ "alice = 1" ++ nl ++ nl.
Proof. vm_compute. reflexivity. Qed.

(** C1. The claim fails on a database that [New] created: [New] sets the
    [created] flag and nothing clears it, so [Save] skips the backup its
    comment promises. [New] creates the database in a directory that does
    not exist, one record is set, and [Save] returns no error: the new text
    replaces the file, the directory holds nothing else, and the directory
    just before the replacement holds the previous contents under no name
    of a backup. *)
Theorem Save_created_no_backup :
  let e1 := sys_at 1 "20230101.000000.000000000" in
  let e2 := sys_at 2 "20230101.000000.000000001" in
  New ini_Load_empty e1 "config" true (-1) None
    = (Some created_db, Some created_dir, Some ErrCreated) ∧
  Set_ "" "nick" "bob" created_db = (created_db_set, None) ∧
  Save e2 created_db_set created_dir
    = (set_dirty false created_db_set,
       {[ "config" := render e2 (tables created_db_set) ]}, None) ∧
  created_dir !! "config" ≠ Some (render e2 (tables created_db_set)) ∧
  ¬ backup_before_replace e2 created_db_set created_dir.
Proof.
  intros e1 e2.
  split; [vm_compute; reflexivity|]. split; [vm_compute; reflexivity|].
  split; [vm_compute; reflexivity|].
  split; [intros H; vm_compute in H; discriminate H|].
  intros H. destruct (H (auto ++ nl ++ nl)) as (name & Hpre & Hname).
  { vm_compute. reflexivity. }
  assert (Hmid :
    (Save_backup e2 created_db_set created_dir).1
    = <["config2" := render e2 (tables created_db_set)]> created_dir).
  { vm_compute. reflexivity. }
  rewrite Hmid in Hname. unfold created_dir in Hname.
  apply lookup_insert_Some in Hname as [[<- _]|[_ Hname]].
  - vm_compute in Hpre. discriminate Hpre.
  - apply lookup_singleton_Some in Hname as [<- _].
    vm_compute in Hpre. discriminate Hpre.
Qed.

End inidb_save_examples.


(** ** The chat-message element passes *)


Section passes.
Import chatmsg.

Context {embeddedArgs : Type}.
Implicit Types (el : chatMsgEl embeddedArgs) (l : list (chatMsgEl embeddedArgs)).
Implicit Types (mk : string → chatMsgEl embeddedArgs) (re : Regexp).

Lemma content_app l1 l2 : content (l1 ++ l2)%list = content l1 ++ content l2.
Proof.
  induction l1 as [|el l1 IH]; simpl; [done|].
  by rewrite IH, append_assoc.
Qed.

Lemma el_content_textEl (s : string) :
  el_content (textEl (embeddedArgs := embeddedArgs) s) = s.
Proof. unfold el_content. simpl. by rewrite !append_nil_r. Qed.

Lemma el_content_plain el : plain el = true → el_content el = text el ∨ text el = "".
Proof.
  unfold plain, el_content. intros [H|H]%orb_true_iff.
  - right. by apply String.eqb_eq.
  - left. destruct (mention el), (url el); try done.
    simpl. by rewrite !append_nil_r.
Qed.

Lemma plain_textEl (s : string) :
  plain (textEl (embeddedArgs := embeddedArgs) s) = true.
Proof. unfold plain. simpl. apply orb_true_r. Qed.

Lemma slice_Some (s : string) (lo hi : nat) :
  (lo ≤ hi)%nat → (hi ≤ String.length s)%nat →
  slice s lo hi = Some (substring lo (hi - lo) s).
Proof.
  intros H1 H2. unfold slice.
  apply Nat.leb_le in H1, H2. by rewrite H1, H2.
Qed.

(** The inner loop, on valid matches: it does not panic, and the elements it
    builds spell the text from [lastEnd] on. *)
Lemma splitAt_content mk (s : string) (positions : list (nat * nat)) (lastEnd : nat) :
  (∀ m, el_content (mk m) = m) →
  (∀ m, plain (mk m) = true) →
  valid_positions (String.length s) lastEnd positions = true →
  ∃ l', splitAt mk s lastEnd positions = Some l' ∧
        content l' = substring lastEnd (String.length s - lastEnd) s ∧
        Forall (λ el, plain el = true) l'.
Proof.
  intros Hmk Hplain. revert lastEnd.
  induction positions as [|[p0 p1] rest IH]; intros lastEnd Hv; simpl in *.
  - apply Nat.leb_le in Hv. rewrite slice_Some by lia. simpl.
    eexists. split; [done|]. split.
    + simpl. by rewrite el_content_textEl, append_nil_r.
    + constructor; [apply plain_textEl | constructor].
  - apply andb_true_iff in Hv as [Hv Hrest].
    apply andb_true_iff in Hv as [Hv H3]. apply andb_true_iff in Hv as [H1 H2].
    apply Nat.leb_le in H1, H2, H3.
    destruct (IH p1 Hrest) as (tl & Htl & Hc & Hp).
    rewrite !slice_Some by lia. simpl. rewrite Htl. simpl.
    eexists. split; [done|]. split.
    + simpl. rewrite el_content_textEl, Hmk, Hc.
      rewrite substring_split by lia. apply substring_split; lia.
    + constructor; [apply plain_textEl|]. constructor; [apply Hplain | done].
Qed.

(** The outer loop, on elements of the shape the passes build and valid
    matches: it does not panic and the characters are the same, in order. *)
Lemma splitWith_content re mk l :
  (∀ m, el_content (mk m) = m) →
  (∀ m, plain (mk m) = true) →
  Forall (λ el, plain el = true) l →
  Forall (λ el, valid_matches re el = true) l →
  ∃ l', splitWith re mk l = Some l' ∧ content l' = content l ∧
        Forall (λ el, plain el = true) l'.
Proof.
  intros Hmk Hplain Hl Hv.
  induction l as [|el l IH]; simpl.
  - by exists [].
  - apply Forall_cons in Hl as [Hel Hl]. apply Forall_cons in Hv as [Hvel Hv].
    destruct (IH Hl Hv) as (tl & Htl & Hc & Hp). rewrite Htl.
    destruct (String.eqb_spec (text el) "") as [He|Hne].
    { simpl. eexists. split; [done|]. split; [simpl; by rewrite Hc|].
      by constructor. }
    unfold valid_matches in Hvel.
    destruct (re (text el)) as [|pos rest] eqn:Hre.
    { simpl. eexists. split; [done|]. split; [simpl; by rewrite Hc|].
      by constructor. }
    destruct (splitAt_content mk (text el) (pos :: rest) 0 Hmk Hplain Hvel)
      as (new & Hnew & Hcn & Hpn).
    exists (new ++ tl)%list. simpl in Hnew. rewrite Hnew. simpl.
    split; [done|]. split.
    + rewrite content_app, Hcn, Hc, Nat.sub_0_r, substring_full. simpl.
      destruct (el_content_plain el Hel) as [->|?]; done.
    + by apply Forall_app.
Qed.

(** C9. On a list whose elements have the shape of every element the
    program builds (text without a mention or a url), and with matches that
    are successive and inside the text, as the regexp library returns them:
    [splitURLs] and [splitMentions] do not panic, and the characters of the
    elements after each pass are the characters before it, in the same
    order. A mention pattern the library rejects leaves the list as it
    is. *)
Theorem split_preserves_content (urlRegexp : Regexp)
    (regexp_Compile : string → option Regexp) (mention_ : string) l :
  Forall (λ el, plain el = true) l →
  Forall (λ el, valid_matches urlRegexp el = true) l →
  (∀ re, regexp_Compile ("\b" ++ mention_ ++ "\b") = Some re →
         Forall (λ el, valid_matches re el = true) l) →
  (∃ l1, splitURLs urlRegexp l = Some l1 ∧ content l1 = content l) ∧
  (∃ l2, splitMentions regexp_Compile mention_ l = Some l2 ∧
         content l2 = content l).
Proof.
  intros Hplain Hurl Hmention.
  assert (Hu : ∀ m, el_content (urlEl (embeddedArgs := embeddedArgs) m) = m)
    by done.
  assert (Hm : ∀ m, el_content (mentionEl (embeddedArgs := embeddedArgs) m) = m).
  { intros m. unfold el_content. simpl. by rewrite append_nil_r. }
  split.
  - destruct (splitWith_content urlRegexp urlEl l Hu) as (l1 & H1 & H2 & _);
      [done..|].
    by exists l1.
  - unfold splitMentions.
    destruct (regexp_Compile ("\b" ++ mention_ ++ "\b")) as [re|] eqn:Hre.
    + destruct (splitWith_content re mentionEl l Hm) as (l2 & H1 & H2 & _);
        [done | done | by apply Hmention |].
      by exists l2.
    + by exists l.
Qed.

End passes.

Section passes_examples.
Import chatmsg.

Lemma split_preserves_content_witness :
  Forall (λ el, plain el = true) example_line ∧
  Forall (λ el, valid_matches find_url el = true) example_line ∧
  (∃ l1, splitURLs find_url example_line = Some l1 ∧
         content l1 = content example_line) ∧
  (∃ l2, splitMentions compile_word "bob" example_line = Some l2 ∧
         content l2 = content example_line).
Proof.
  split; [repeat constructor|]. split; [repeat constructor|].
  apply (split_preserves_content find_url compile_word "bob" example_line).
  - repeat constructor.
  - repeat constructor.
  - intros re Hre. vm_compute in Hre. injection Hre as <-.
    repeat constructor.
Defined.

(** The two passes of the witness, evaluated. *)
Example splitURLs_example :
  splitURLs find_url example_line
  = Some [textEl "bob, see "; urlEl "https://bisonrelay.org/x";
          textEl ". bye bob"].
Proof. vm_compute. reflexivity. Qed.

Example splitMentions_example :
  splitMentions compile_word "bob" example_line
  = Some [textEl ""; mentionEl "bob";
          textEl ", see https://bisonrelay.org/x. bye "; mentionEl "bob";
          textEl ""].
Proof. vm_compute. reflexivity. Qed.

End passes_examples.

(** ** The chat window *)

Section window_invariant.
Import chatmsg.

Context {embeddedArgs : Type}.
Variable parseEmbedArgs : string → embeddedArgs.
Variable embedRegexp : Regexp.
Variable urlRegexp : Regexp.
Variable regexp_Compile : string → option Regexp.

Implicit Types (cw : chatWindow embeddedArgs) (m : chatMsg embeddedArgs).

Lemma len_msgs_snoc cw m :
  len_msgs (set_msgs (msgs cw ++ [m])%list cw) = len_msgs cw + 1.
Proof. unfold len_msgs. simpl. rewrite length_app. simpl. lia. Qed.

Lemma appendMsg_inv (o : option (chatMsg embeddedArgs)) cw :
  unread_inv cw → unread_inv (appendMsg o cw).
Proof.
  unfold unread_inv. intros H. destruct o as [m|]; simpl; [|done].
  pose proof (len_msgs_snoc cw m) as Hlen.
  destruct ((mine m || internal m || help m) && (unreadIdx cw =? len_msgs cw));
    simpl; unfold len_msgs in *; simpl in *; lia.
Qed.

Local Arguments appendMsg : simpl never.

Lemma helpMsg_inv cw cw' (p : Z * string) :
  helpMsg parseEmbedArgs embedRegexp urlRegexp regexp_Compile cw p = Some cw' →
  unread_inv cw → unread_inv cw'.
Proof.
  unfold helpMsg, unread_inv. intros Hh H.
  destruct (parse _ _ _ _ _ _) as [els|]; simplify_eq/=.
  pose proof (len_msgs_snoc cw
    (mkMsg p.1 false "" els false false true "" None None)) as Hlen.
  unfold len_msgs in *; simpl in *; lia.
Qed.

Lemma manyHelpMsgs_inv (f : list (Z * string)) cw cw' :
  manyHelpMsgs parseEmbedArgs embedRegexp urlRegexp regexp_Compile f cw = Some cw' →
  unread_inv cw → unread_inv cw'.
Proof.
  revert cw. induction f as [|p f IH]; intros cw Hm H; simpl in Hm.
  - by simplify_eq.
  - destruct (helpMsg _ _ _ _ cw p) as [cw1|] eqn:H1; simplify_eq/=.
    eauto using helpMsg_inv.
Qed.

Lemma exec_inv (c : call embeddedArgs) cw cw' :
  exec parseEmbedArgs embedRegexp urlRegexp regexp_Compile c cw = Some cw' →
  unread_inv cw → unread_inv cw'.
Proof.
  intros He H. destruct c; simpl in He.
  - simplify_eq. by apply appendMsg_inv.
  - unfold newUnsentPM in He.
    destruct (parse _ _ _ _ _ _); simplify_eq/=. by apply appendMsg_inv.
  - unfold newInternalMsg in He.
    destruct (parse _ _ _ _ _ _); simplify_eq/=. by apply appendMsg_inv.
  - eauto using manyHelpMsgs_inv.
  - unfold newRecvdMsg in He.
    destruct (parse _ _ _ _ _ _); simplify_eq/=. by apply appendMsg_inv.
  - simplify_eq. unfold unread_inv, markAllRead in *. simpl.
    unfold len_msgs in *. simpl. lia.
Qed.

Lemma run_inv (cs : list (call embeddedArgs)) cw cw' :
  run parseEmbedArgs embedRegexp urlRegexp regexp_Compile cs cw = Some cw' →
  unread_inv cw → unread_inv cw'.
Proof.
  revert cw. induction cs as [|c cs IH]; intros cw Hr H; simpl in Hr.
  - by simplify_eq.
  - destruct (exec _ _ _ _ c cw) as [cw1|] eqn:H1; simplify_eq/=.
    eauto using exec_inv.
Qed.

(** C10. From a window without messages and with [unreadIdx] zero, after
    any sequence of calls of [appendMsg], [newUnsentPM], [newInternalMsg],
    [manyHelpMsgs], [newRecvdMsg] and [markAllRead], [unreadIdx] is between
    zero and the number of messages, [unreadCount] is between zero and the
    number of messages, and [appendMsg] of the nil message leaves the window
    as it is. *)
Theorem chatWindow_unread_invariant (cs : list (call embeddedArgs)) cw0 cw :
  msgs cw0 = [] →
  unreadIdx cw0 = 0 →
  run parseEmbedArgs embedRegexp urlRegexp regexp_Compile cs cw0 = Some cw →
  0 ≤ unreadIdx cw ≤ len_msgs cw ∧
  0 ≤ unreadCount cw ≤ len_msgs cw ∧
  appendMsg None cw = cw.
Proof.
  intros Hmsgs Hidx Hrun.
  assert (H0 : unread_inv cw0).
  { unfold unread_inv, len_msgs. rewrite Hmsgs, Hidx. simpl. lia. }
  pose proof (run_inv cs cw0 cw Hrun H0) as H. unfold unread_inv in H.
  split; [done|]. split; [unfold unreadCount; lia | done].
Qed.

End window_invariant.

Section window_total.
Import chatmsg.

Context {embeddedArgs : Type}.
Variable parseEmbedArgs : string → embeddedArgs.
Variable embedRegexp : Regexp.
Variable urlRegexp : Regexp.
Variable regexp_Compile : string → option Regexp.

Hypothesis embedRegexp_ok : regexp_ok embedRegexp.
Hypothesis urlRegexp_ok : regexp_ok urlRegexp.
Hypothesis regexp_Compile_ok :
  ∀ pattern re, regexp_Compile pattern = Some re → regexp_ok re.

Implicit Types (cw : chatWindow embeddedArgs).

Lemma splitAt_total (mk : string → chatMsgEl embeddedArgs) (s : string)
    (positions : list (nat * nat)) (lastEnd : nat) :
  valid_positions (String.length s) lastEnd positions = true →
  is_Some (splitAt mk s lastEnd positions).
Proof.
  revert lastEnd.
  induction positions as [|[p0 p1] rest IH]; intros lastEnd Hv; simpl in *.
  - apply Nat.leb_le in Hv. rewrite slice_Some by lia. by eexists.
  - apply andb_true_iff in Hv as [Hv Hrest].
    apply andb_true_iff in Hv as [Hv H3]. apply andb_true_iff in Hv as [H1 H2].
    apply Nat.leb_le in H1, H2, H3.
    destruct (IH p1 Hrest) as [tl Htl].
    rewrite !slice_Some by lia. simpl. rewrite Htl. by eexists.
Qed.

Lemma splitWith_total (re : Regexp) (mk : string → chatMsgEl embeddedArgs)
    (l : list (chatMsgEl embeddedArgs)) :
  regexp_ok re → is_Some (splitWith re mk l).
Proof.
  intros Hre. induction l as [|el l [tl Htl]]; simpl; [by eexists|].
  rewrite Htl. destruct (String.eqb (text el) ""); [by eexists|].
  pose proof (Hre (text el)) as Hv.
  destruct (re (text el)) as [|pos rest]; [by eexists|].
  destruct (splitAt_total mk (text el) (pos :: rest) 0 Hv) as [new Hnew].
  simpl in Hnew. rewrite Hnew. by eexists.
Qed.

Lemma parse_total (text_ mention_ : string) :
  is_Some (parse parseEmbedArgs embedRegexp urlRegexp regexp_Compile
             text_ mention_).
Proof.
  unfold parse, parseMsgIntoElements. apply mapM_is_Some, Forall_forall.
  intros line _. unfold compose, parseMsgLine, parseLine, splitEmbeds, splitURLs.
  destruct (splitWith_total embedRegexp (embedEl parseEmbedArgs)
              ([] ++ [textEl line]) embedRegexp_ok) as [l1 ->].
  cbn [mbind option_bind].
  destruct (splitWith_total urlRegexp urlEl l1 urlRegexp_ok) as [l2 ->].
  cbn [mbind option_bind]. destruct (String.eqb mention_ ""); [by eexists|].
  unfold splitMentions.
  destruct (regexp_Compile ("\b" ++ mention_ ++ "\b")) as [re|] eqn:Hre;
    [|by eexists].
  apply splitWith_total. eauto.
Qed.

Lemma exec_total (c : call embeddedArgs) cw :
  is_Some (exec parseEmbedArgs embedRegexp urlRegexp regexp_Compile c cw).
Proof.
  destruct c as [m|now t|now t|f|from_ t u ts_|]; simpl; try by eexists.
  - unfold newUnsentPM. destruct (parse_total t "") as [els ->]. by eexists.
  - unfold newInternalMsg. destruct (parse_total t "") as [els ->]. by eexists.
  - revert cw. induction f as [|p f IH]; intros cw; simpl; [by eexists|].
    unfold helpMsg. destruct (parse_total p.2 "") as [els ->]. simpl. apply IH.
  - unfold newRecvdMsg. destruct (parse_total t (me cw)) as [els ->].
    by eexists.
Qed.

(** With matchers as the regexp library grants them, no sequence of calls
    on a chat window panics. *)
Lemma run_total (cs : list (call embeddedArgs)) cw :
  is_Some (run parseEmbedArgs embedRegexp urlRegexp regexp_Compile cs cw).
Proof.
  revert cw. induction cs as [|c cs IH]; intros cw; simpl; [by eexists|].
  destruct (exec_total c cw) as [cw' ->]. simpl. apply IH.
Qed.

End window_total.

Section window_examples.
Import chatmsg.

Lemma chatWindow_unread_invariant_witness :
  msgs (new_window "bob") = [] ∧
  unreadIdx (new_window "bob") = 0 ∧
  ∃ cw,
    run (λ s : string, s) find_nothing find_url compile_word
      example_calls (new_window "bob") = Some cw ∧
    0 ≤ unreadIdx cw ≤ len_msgs cw ∧
    0 ≤ unreadCount cw ≤ len_msgs cw ∧
    appendMsg None cw = cw.
Proof.
  split; [reflexivity|]. split; [reflexivity|].
  destruct (run (λ s : string, s) find_nothing find_url compile_word
              example_calls (new_window "bob")) as [cw|] eqn:Hrun.
  - exists cw. split; [reflexivity|].
    apply (chatWindow_unread_invariant (λ s : string, s) find_nothing find_url
             compile_word example_calls (new_window "bob") cw);
      [reflexivity | reflexivity | exact Hrun].
  - vm_compute in Hrun. discriminate Hrun.
Defined.

(** The example, evaluated: five messages, the last three unread. *)
Example run_example_calls :
  (λ cw, (len_msgs cw, unreadIdx cw, unreadCount cw)) <$>
    run (λ s : string, s) find_nothing find_url compile_word
      example_calls (new_window "bob")
  = Some (5, 2, 3).
Proof. vm_compute. reflexivity. Qed.

End window_examples.

(** ** The client RPC declarations *)

Section clientrpc_version.
Import clientrpc.

(** C7 fails on the name of the second field: the response of [Version] has
    no field called runtime. *)
Lemma VersionResponse_no_runtime :
  rpc_response Version = VersionResponse ∧
  field_names VersionResponse ≠ ["app_version"; "runtime"; "app_name"] ∧
  "runtime" ∉ field_names VersionResponse.
Proof.
  split; [reflexivity|]. split.
  - intros H. vm_compute in H. discriminate H.
  - intros H. vm_compute in H.
    repeat (apply elem_of_cons in H as [H|H]; [discriminate H|]).
    by apply elem_of_nil in H.
Qed.

(** C7, as the declaration has it. [Version] returns a [VersionResponse],
    which has exactly three fields, all strings: app_version, go_runtime and
    app_name, numbered 1 to 3. *)
Theorem VersionResponse_fields :
  rpc_response Version = VersionResponse ∧
  field_names VersionResponse = ["app_version"; "go_runtime"; "app_name"] ∧
  field_ty <$> message_fields VersionResponse = [TString; TString; TString] ∧
  field_number <$> message_fields VersionResponse = [1; 2; 3]%positive.
Proof. repeat split. Qed.

End clientrpc_version.

(** ** The routing core *)

Section core_spec.
Import core.

Lemma keepalive_times_length (start i : Z) (n : nat) :
  length (keepalive_times start i n) = n.
Proof.
  revert start. induction n as [|n IH]; intros start; simpl; [done|].
  by rewrite IH.
Qed.

Lemma keepalive_times_lookup (start i : Z) (n k : nat) :
  (k < n)%nat →
  keepalive_times start i n !! k
    = Some (start + (Z.of_nat k + 1) * keepalive_interval i).
Proof.
  revert start k. induction n as [|n IH]; intros start k Hk; [lia|].
  destruct k as [|k]; simpl.
  - f_equal. lia.
  - rewrite IH by lia. f_equal. lia.
Qed.

(** C2. For every requested interval the heartbeats of the stream are at
    least one second apart: below 1000 ms the interval is 1000 ms, from
    1000 ms on it is the requested one. The stream emits its heartbeats at
    that interval: of the first [n], the one of index [k] comes [k + 1]
    intervals after the start, so that every heartbeat follows the one
    before it by the interval. *)
Theorem keepalive_interval_clamped (i : Z) :
  1000 ≤ keepalive_interval i ∧
  (i < 1000 → keepalive_interval i = 1000) ∧
  (1000 ≤ i → keepalive_interval i = i) ∧
  ∀ (start : Z) (n : nat),
    length (keepalive_times start i n) = n ∧
    (∀ k, (k < n)%nat →
       keepalive_times start i n !! k
         = Some (start + (Z.of_nat k + 1) * keepalive_interval i)) ∧
    ∀ (k : nat) (t1 t2 : Z),
      keepalive_times start i n !! k = Some t1 →
      keepalive_times start i n !! S k = Some t2 →
      t2 - t1 = keepalive_interval i.
Proof.
  split; [|split; [|split]].
  - unfold keepalive_interval. destruct (Z.ltb_spec i 1000); lia.
  - unfold keepalive_interval. destruct (Z.ltb_spec i 1000); lia.
  - unfold keepalive_interval. destruct (Z.ltb_spec i 1000); lia.
  - intros start n. split; [apply keepalive_times_length|].
    split; [intros k Hk; by apply keepalive_times_lookup|].
    intros k t1 t2 H1 H2.
    assert (Hk : (S k < n)%nat).
    { apply lookup_lt_Some in H2. by rewrite keepalive_times_length in H2. }
    rewrite keepalive_times_lookup in H1, H2 by lia. simplify_eq. lia.
Qed.

(** The heartbeats of a stream asked for every 250 ms, and of one asked for
    every 2500 ms. *)
Example keepalive_times_250 :
  keepalive_times 0 250 3 = [1000; 2000; 3000].
Proof. reflexivity. Qed.

Example keepalive_times_2500 :
  keepalive_times 0 2500 3 = [2500; 5000; 7500].
Proof. reflexivity. Qed.

(** C3. An inbound group message of generation [g], at a member whose
    cached generation is [cur]: it is accepted exactly when [g = cur]; with
    [g < cur] it is dropped and the member is as before; with [g > cur] it
    is not accepted and one metadata-fetch request for the group is added. *)
Theorem receive_gcm_gate (m : clientrpc.GroupMessage) (st : gc_member) :
  let g := clientrpc.gm_generation m in
  let cur := cached_generation st in
  ((receive_gcm m st).1 = Accepted ↔ g = cur) ∧
  (g = cur → accepted (receive_gcm m st).2 = (accepted st ++ [m])%list) ∧
  (g < cur → receive_gcm m st = (Dropped, st))%N ∧
  (cur < g →
     (receive_gcm m st).1 = FetchRequested ∧
     accepted (receive_gcm m st).2 = accepted st ∧
     fetch_requests (receive_gcm m st).2
       = (fetch_requests st ++ [clientrpc.gm_id m])%list)%N.
Proof.
  intros g cur. unfold receive_gcm. fold g cur.
  destruct (N.eqb_spec g cur) as [Heq|Hne]; simpl.
  - repeat split; try done; lia.
  - destruct (N.ltb_spec g cur); simpl; repeat split; try done; try lia.
Qed.

(** A member at generation 4 receives messages of generations 3, 4 and 5. *)
Example receive_gcm_example :
  let st := mkMember 4 [] [] in
  let msg g := clientrpc.mkGroupMessage 7 g "hi" clientrpc.MESSAGE_MODE_NORMAL in
  (receive_gcm (msg 3%N) st).1 = Dropped ∧
  (receive_gcm (msg 4%N) st).1 = Accepted ∧
  receive_gcm (msg 5%N) st = (FetchRequested, mkMember 4 [] [7%N]).
Proof. repeat split. Qed.

End core_spec.

Section core_ack.
Import core.









Lemma reachable_assigned_reachable (st : stream) :
  reachable_assigned st → reachable st.
Proof. induction 1; by constructor. Qed.


End core_ack.

Section core_ack_examples.
Import core.



(** The example stream: the mark is 2, the first two records are acked. *)
Example example_stream_state :
  example_stream =
  mkStream 5 2 [mkRecord 1 10 true; mkRecord 2 11 true;
                mkRecord 3 12 false; mkRecord 4 13 false].
Proof. reflexivity. Qed.


End core_ack_examples.

Section core_rv.
Import core.

(** C6. [register] on a tag that is in the tag map fails with
    [tag_collision] and leaves the map as it is; the handler of the tag is
    the one it had. *)
Theorem register_collision (tag : N) (h h0 : handler) (m : gmap N handler) :
  m !! tag = Some h0 →
  register tag h m = (m, Some tag_collision) ∧
  (register tag h m).1 !! tag = Some h0.
Proof. intros Hin. unfold register. by rewrite Hin. Qed.

Lemma register_collision_witness :
  example_tags !! 2%N = Some (mkHandler 200 false) ∧
  register 2 (mkHandler 300 true) example_tags
    = (example_tags, Some tag_collision) ∧
  (register 2 (mkHandler 300 true) example_tags).1 !! 2%N
    = Some (mkHandler 200 false).
Proof.
  split; [reflexivity|].
  apply (register_collision 2 (mkHandler 300 true) (mkHandler 200 false)
           example_tags).
  reflexivity.
Defined.

(** A tag that is not in the map is registered. *)
Lemma register_fresh (tag : N) (h : handler) (m : gmap N handler) :
  m !! tag = None → register tag h m = (<[tag := h]> m, None).
Proof. intros Hn. unfold register. by rewrite Hn. Qed.

End core_rv.



(** * Further properties of the code *)

(** ** The INI database: records and tables *)

Section inidb_records.
Import inidb.

(** X1. [Set] on a table that exists returns no error, marks the database
    dirty, and [Get] then returns the value set; every other record reads as
    before. *)
Theorem Set_then_Get (i : INIDB) (t k v : string) (s : gmap string string) :
  tables i !! t = Some s →
  ∃ i', Set_ t k v i = (i', None) ∧
        Get t k i' = (v, None) ∧
        dirty i' = true ∧
        ∀ t' k', (t', k') ≠ (t, k) → Get t' k' i' = Get t' k' i.
Proof.
  intros Ht. unfold Set_. rewrite Ht. eexists. split; [done|].
  unfold Get. simpl. rewrite lookup_insert_eq, lookup_insert_eq.
  split; [done|]. split; [done|]. intros t' k' Hne.
  destruct (decide (t' = t)) as [->|Htt].
  - rewrite lookup_insert_eq, Ht.
    rewrite lookup_insert_ne by congruence. done.
  - by rewrite lookup_insert_ne.
Qed.

(** X2. [Del] on a table that exists returns no error and marks the
    database dirty, whether or not the record was there; [Get] of the record
    then fails with [ErrNotFound], and every other record reads as before. *)
Theorem Del_then_Get (i : INIDB) (t k : string) (s : gmap string string) :
  tables i !! t = Some s →
  ∃ i', Del t k i = (i', None) ∧
        Get t k i' = ("", Some ErrNotFound) ∧
        dirty i' = true ∧
        ∀ t' k', (t', k') ≠ (t, k) → Get t' k' i' = Get t' k' i.
Proof.
  intros Ht. unfold Del. rewrite Ht. eexists. split; [done|].
  unfold Get. simpl. rewrite lookup_insert_eq, lookup_delete_eq.
  split; [done|]. split; [done|]. intros t' k' Hne.
  destruct (decide (t' = t)) as [->|Htt].
  - rewrite lookup_insert_eq, Ht.
    rewrite lookup_delete_ne by congruence. done.
  - by rewrite lookup_insert_ne.
Qed.

(** X3. [NewTable] makes the table exist and keeps the records of a table
    that was there already; the other tables and the dirty flag are as
    before, a second [NewTable] changes nothing, and [Set] on the table then
    succeeds. *)
Theorem NewTable_exists (i : INIDB) (t : string) :
  tables (NewTable t i) !! t = Some (Records t i) ∧
  (∀ t', t' ≠ t → tables (NewTable t i) !! t' = tables i !! t') ∧
  dirty (NewTable t i) = dirty i ∧
  NewTable t (NewTable t i) = NewTable t i ∧
  ∀ k v, (Set_ t k v (NewTable t i)).2 = None.
Proof.
  assert (Hn : NewTable t i =
    set_tables (<[t := Records t i]> (tables i)) i).
  { unfold NewTable, Section_, Records.
    destruct (tables i !! t) as [s|] eqn:Ht; simpl; [|done].
    by rewrite insert_id. }
  assert (Ht : tables (NewTable t i) !! t = Some (Records t i)).
  { rewrite Hn. simpl. apply lookup_insert_eq. }
  split; [done|]. split; [|split; [|split]].
  - intros t' Hne. rewrite Hn. simpl. by rewrite lookup_insert_ne.
  - by rewrite Hn.
  - unfold NewTable at 1, Section_. by rewrite Ht; destruct (NewTable t i).
  - intros k v. unfold Set_. by rewrite Ht.
Qed.

(** X4. [NewTable] does not mark the database dirty: on a clean database a
    [Save] right after it returns at once, and the new table is not
    written. *)
Theorem NewTable_not_saved (e : sys) (t : string) (i : INIDB)
    (d : gmap string string) :
  dirty i = false →
  Save e (NewTable t i) d = (NewTable t i, d, None).
Proof. intros Hd. unfold Save, NewTable. simpl. by rewrite Hd. Qed.

(** X5. [DelTable] on a table that exists returns no error, marks the
    database dirty and removes the table with its records: [Get], [Set],
    [Del] and a second [DelTable] on it then fail with [ErrNotFound]; the
    other tables are as before. *)
Theorem DelTable_removes (i : INIDB) (t : string) (s : gmap string string) :
  tables i !! t = Some s →
  ∃ i', DelTable t i = (i', None) ∧
        dirty i' = true ∧
        (∀ k, Get t k i' = ("", Some ErrNotFound)) ∧
        (∀ k v, Set_ t k v i' = (i', Some ErrNotFound)) ∧
        (∀ k, Del t k i' = (i', Some ErrNotFound)) ∧
        DelTable t i' = (i', Some ErrNotFound) ∧
        ∀ t', t' ≠ t → tables i' !! t' = tables i !! t'.
Proof.
  intros Ht. unfold DelTable at 1. rewrite Ht. eexists. split; [done|].
  unfold Get, Set_, Del, DelTable. simpl. rewrite !lookup_delete_eq.
  repeat split; try done. intros t' Hne. by rewrite lookup_delete_ne.
Qed.

(** X6. [Tables] lists exactly the tables of the database, each once. *)
Theorem Tables_spec (i : INIDB) :
  NoDup (Tables i) ∧
  length (Tables i) = size (tables i) ∧
  ∀ t, t ∈ Tables i ↔ is_Some (tables i !! t).
Proof.
  unfold Tables. split; [apply NoDup_fst_map_to_list|]. split.
  - by rewrite length_fmap, length_map_to_list.
  - intros t. rewrite list_elem_of_fmap. split.
    + intros [[t' s] [-> Hin]]. apply elem_of_map_to_list in Hin. by exists s.
    + intros [s Hs]. exists (t, s). split; [done|].
      by apply elem_of_map_to_list.
Qed.

(** X7. [Records] agrees with [Get]: a record is in the copy exactly when
    [Get] returns it without error; the copy of a table that does not exist
    is empty. *)
Theorem Records_spec (i : INIDB) (t : string) :
  (∀ k v, Records t i !! k = Some v ↔ Get t k i = (v, None)) ∧
  (tables i !! t = None → Records t i = ∅).
Proof.
  unfold Records, Get. split.
  - intros k v. destruct (tables i !! t) as [s|]; simpl.
    + destruct (s !! k) as [v'|]; split; intros H; by simplify_eq.
    + rewrite lookup_empty. split; intros H; by simplify_eq.
  - by intros ->.
Qed.

End inidb_records.

(** ** The INI database: saving *)

Section inidb_saving.
Import inidb.

Lemma Rename_lookup_other (old new k : string) (d d' : gmap string string) :
  Rename old new d = Some d' → k ≠ old → k ≠ new → d' !! k = d !! k.
Proof.
  unfold Rename. intros H Ho Hn. destruct (d !! old); simplify_eq.
  rewrite lookup_insert_ne by done. by rewrite lookup_delete_ne.
Qed.

Lemma prefix_false_neq_backupName (fname now k : string) :
  String.prefix (fname ++ ".") k = false → k ≠ backupName fname now.
Proof. intros H ->. by rewrite prefix_backupName in H. Qed.

(** A [Save] that returns no error leaves the database clean. *)
Lemma Save_ok_clean (e : sys) (i i' : INIDB) (d d' : gmap string string) :
  Save e i d = (i', d', None) → dirty i' = false.
Proof.
  unfold Save. destruct (dirty i) eqn:Hd; simpl.
  - destruct (Save_backup e i d) as [d3 [f|err]]; [|intros; simplify_eq].
    destruct (Rename f (filename i) d3) as [d4|]; [|intros; simplify_eq].
    destruct (prune e (set_dirty false i) d4) as [d5 err].
    by intros [= <- _ _].
  - by intros [= <- _].
Qed.

(** X8. After a [Save] that returned no error, a second [Save] with nothing
    set in between returns at once: the directory and the database are as
    the first one left them, and no further backup is made. *)
Theorem Save_twice (e e2 : sys) (i i' : INIDB) (d d' : gmap string string) :
  Save e i d = (i', d', None) →
  Save e2 i' d' = (i', d', None).
Proof.
  intros H%Save_ok_clean. unfold Save. by rewrite H.
Qed.

(** X9. [Save] of a dirty database that was not created, when its file is
    gone from the directory: [Save] returns an error and leaves the
    database dirty. When the temporary file cannot be created the directory
    is as before; otherwise the rename of the original fails, and the
    temporary file [Save] wrote stays in the directory under the name
    [os.CreateTemp] chose, a name that was free; nothing else changes. *)
Theorem Save_original_missing (e : sys) (i : INIDB) (d : gmap string string) :
  dirty i = true →
  created i = false →
  d !! filename i = None →
  match CreateTemp e (filename i) d with
  | None =>
      Save e i d = (i, d, Some (ErrIO "could not create temporary file"))
  | Some (f, _) =>
      Save e i d =
        (i, <[f := render e (tables i)]> d,
         Some (ErrIO "could not rename original file")) ∧
      d !! f = None
  end.
Proof.
  intros Hd Hc Hf. unfold Save, Save_backup. rewrite Hd. simpl.
  destruct (CreateTemp e (filename i) d) as [[f d1]|] eqn:Hct; [|done].
  apply CreateTemp_spec in Hct as (Hfree & -> & Hne & _).
  rewrite Hc. unfold Rename.
  rewrite lookup_insert_ne by done. rewrite lookup_insert_ne by done.
  rewrite Hf. by rewrite insert_insert_eq.
Qed.

(** X10. Whatever its outcome, [Save] leaves alone every entry the
    directory holds that is neither the database file nor named with the
    prefix of the backups: the temporary file never takes the name of an
    entry that is there. *)
Theorem Save_other_entries (e : sys) (i : INIDB) (d : gmap string string)
    (k : string) :
  is_Some (d !! k) →
  k ≠ filename i →
  String.prefix (filename i ++ ".") k = false →
  (Save e i d).1.2 !! k = d !! k.
Proof.
  intros Hk0 Hk1 Hk3.
  pose proof (prefix_false_neq_backupName (filename i) (time_Now e) k Hk3)
    as Hk4.
  unfold Save. destruct (dirty i); simpl; [|done].
  assert (Hsb : ∀ d3 r, Save_backup e i d = (d3, r) →
            d3 !! k = d !! k ∧ ∀ f, r = inl f → k ≠ f).
  { unfold Save_backup. intros d3 r.
    destruct (CreateTemp e (filename i) d) as [[f d1]|] eqn:Hct;
      [|intros; by simplify_eq].
    apply CreateTemp_spec in Hct as (Hfree & -> & _).
    assert (Hkf : k ≠ f).
    { intros ->. rewrite Hfree in Hk0. by destruct Hk0. }
    destruct (created i).
    - intros [= <- <-]. split; [by rewrite !lookup_insert_ne|].
      by intros f' [= <-].
    - destruct (Rename _ _ _) as [d3'|] eqn:Hr.
      + intros [= <- <-]. split; [|by intros f' [= <-]].
        rewrite (Rename_lookup_other _ _ k _ _ Hr) by done.
        by rewrite !lookup_insert_ne.
      + intros [= <- <-]. split; [by rewrite !lookup_insert_ne | done]. }
  destruct (Save_backup e i d) as [d3 [f|err]] eqn:Hs;
    destruct (Hsb _ _ eq_refl) as [Hd3 Hf]; [|done].
  pose proof (Hf f eq_refl) as Hkf.
  destruct (Rename _ _ d3) as [d4|] eqn:Hr; [|done].
  pose proof (prune_lookup_other e (set_dirty false i) d4 k Hk3) as Hp.
  destruct (prune e (set_dirty false i) d4) as [d5 err]. simpl in *.
  rewrite Hp, (Rename_lookup_other _ _ k _ _ Hr) by done. done.
Qed.

Lemma StronglySorted_filter_app {A} (R : relation A) (f : A → bool)
    (l1 l2 : list A) :
  StronglySorted R (l1 ++ l2) → StronglySorted R (List.filter f l1 ++ l2).
Proof.
  induction l1 as [|x l1 IH]; simpl; [done|].
  intros H. apply StronglySorted_inv in H as [Hs Hx].
  destruct (f x); [|by apply IH]. simpl. constructor; [by apply IH|].
  apply Forall_app in Hx as [Hx1 Hx2]. apply Forall_app. split; [|done].
  apply Forall_forall. intros y Hy%list_elem_of_In%filter_In.
  destruct Hy as [Hy _]. apply list_elem_of_In in Hy.
  by apply (proj1 (Forall_forall _ _) Hx1).
Qed.

(** X11. With a depth that is not negative, [prune] goes through the
    entries with the prefix of the backups in the order of the names, the
    oldest timestamps first, up to the last [depth] ones: the entries that
    remain are the ones among the first on which [os.Remove] fails, and the
    last [depth] ones (all of them when there are fewer). *)
Theorem prune_keeps_newest (e : sys) (i : INIDB) (d : gmap string string) :
  0 ≤ depth i →
  let bs := backups (filename i) d in
  let n := (length bs - Z.to_nat (depth i))%nat in
  backups (filename i) (prune e i d).1 =
    (List.filter (Remove_fails e) (take n bs) ++ drop n bs)%list.
Proof.
  intros Hdepth bs n. unfold prune.
  destruct (Z.ltb_spec (depth i) 0) as [?|_]; [lia|].
  fold (backups (filename i) d). fold bs.
  destruct (Z.ltb_spec (Z.of_nat (length bs) - depth i) 0) as [Hlt|Hge]; simpl.
  - fold bs. replace n with 0%nat by lia. done.
  - replace (Z.to_nat (Z.of_nat (length bs) - depth i)) with n by lia.
    set (d' := foldl _ d (take n bs)).
    pose proof (StronglySorted_backups (filename i) d) as Hsorted.
    pose proof (NoDup_backups (filename i) d) as Hnodup.
    fold bs in Hsorted, Hnodup.
    rewrite <- (take_drop n bs) in Hsorted, Hnodup.
    apply NoDup_app in Hnodup as (Hnd1 & Hdisj & Hnd2).
    apply (StronglySorted_unique String.le).
    + apply StronglySorted_backups.
    + by apply StronglySorted_filter_app.
    + apply NoDup_Permutation.
      * apply NoDup_backups.
      * apply NoDup_app. split; [|split; [|done]].
        -- by apply NoDup_ListNoDup, List.NoDup_filter, NoDup_ListNoDup.
        -- intros k Hk%list_elem_of_In%filter_In. destruct Hk as [Hk _].
           apply Hdisj. by apply list_elem_of_In.
      * intros k. rewrite elem_of_backups. unfold d'.
        assert (Hfilt : k ∈ List.filter (Remove_fails e) (take n bs) ↔
                        k ∈ take n bs ∧ Remove_fails e k = true)
          by (by rewrite list_elem_of_In, filter_In, <- list_elem_of_In).
        rewrite foldl_Remove_lookup, elem_of_app, Hfilt.
        split.
        -- intros [Hk Hpre].
           destruct (decide (k ∈ take n bs ∧ Remove_fails e k = false))
             as [|Hnin]; [by destruct Hk|].
           assert (Hbs : k ∈ bs) by (by apply elem_of_backups).
           rewrite <- (take_drop n bs) in Hbs.
           apply elem_of_app in Hbs as [Hin|?]; [|by right].
           left. split; [done|].
           destruct (Remove_fails e k); [done|]. by destruct Hnin.
        -- intros Hk. assert (Hbs : k ∈ bs).
           { rewrite <- (take_drop n bs). apply elem_of_app.
             destruct Hk as [[? _]|?]; [by left | by right]. }
           apply elem_of_backups in Hbs as [Hs Hpre]. split; [|done].
           destruct (decide (k ∈ take n bs ∧ Remove_fails e k = false))
             as [[Hin Hok]|]; [|done].
           destruct Hk as [[_ Hf]|Hdrop]; [congruence|].
           by destruct (Hdisj k Hin).
Qed.

End inidb_saving.

(** ** The INI database: opening *)

Section inidb_new.
Import inidb.

Variable ini_Load : string → gmap string (gmap string string) * bool.

Lemma Section_lookup (name : string) (f : gmap string (gmap string string)) :
  is_Some (Section_ name f !! name).
Proof.
  unfold Section_. destruct (f !! name) eqn:H; [by rewrite H|].
  by rewrite lookup_insert_eq.
Qed.

(** [Save] of a dirty database that was created: it fails when the
    temporary file cannot be created, and otherwise leaves the text it
    rendered under the name of the database. *)
Lemma Save_created (e : sys) (i i' : INIDB) (d d' : gmap string string) :
  dirty i = true → created i = true →
  Save e i d = (i', d', None) →
  i' = set_dirty false i ∧ d' !! filename i = Some (render e (tables i)).
Proof.
  intros Hd Hc. unfold Save, Save_backup. rewrite Hd, Hc. simpl.
  destruct (CreateTemp e (filename i) d) as [[f d1]|] eqn:Hct;
    [|intros; by simplify_eq].
  apply CreateTemp_spec in Hct as (_ & -> & _).
  unfold Rename. rewrite lookup_insert_eq.
  match goal with
  | |- context [prune e ?j ?d4] =>
      pose proof (prune_lookup_other e j d4 (filename i)
                    (prefix_dot_self (filename i))) as Hp;
      destruct (prune e j d4) as [d5 e5]
  end.
  intros [= <- <- ->]. split; [done|]. simpl in Hp. rewrite Hp.
  apply lookup_insert_eq.
Qed.

(** X12. Every database [New] returns has the default table, the name and
    depth asked for, and is clean. It comes without error, as opened
    (created unset), with the directory untouched; or with [ErrCreated], as
    created, and then creation was asked for and the directory holds the
    file with the rendered tables. *)
Theorem New_database (e : sys) (fname : string) (create : bool) (dpth : Z)
    (w w' : option (gmap string string)) (i : INIDB) (err : option error) :
  New ini_Load e fname create dpth w = (Some i, w', err) →
  is_Some (tables i !! "") ∧
  filename i = fname ∧ depth i = dpth ∧ dirty i = false ∧
  ((err = None ∧ created i = false ∧ w' = w) ∨
   (err = Some ErrCreated ∧ created i = true ∧ create = true ∧
    ∃ d', w' = Some d' ∧ d' !! fname = Some (render e (tables i)))).
Proof.
  unfold New.
  destruct w as [d0|]; [|destruct create]; simpl;
    try (intros; by simplify_eq).
  - destruct (ini_LoadFile ini_Load fname d0) as [[t missing] bad].
    pose proof (Section_lookup "" t) as Hsec.
    destruct (missing && create) eqn:Hmc.
    + destruct (Save e _ d0) as [[i1 d1] [err1|]] eqn:Hsave;
        intros; simplify_eq.
      apply andb_true_iff in Hmc as [_ ->].
      apply Save_created in Hsave as [-> Hf]; [|done..]. simpl in *.
      repeat split; try done. right. repeat split; try done. by exists d1.
    + destruct (missing || bad); intros; simplify_eq.
      repeat split; try done. by left.
  - change (ini_LoadFile ini_Load fname ∅) with
      (∅ : gmap string (gmap string string), true, false).
    simpl.
    destruct (Save e _ ∅) as [[i1 d1] [err1|]] eqn:Hsave;
      intros; simplify_eq.
    apply Save_created in Hsave as [-> Hf]; [|done..]. simpl in *.
    repeat split; try done. right. repeat split; try done. by exists d1.
Qed.

(** X13. Without creation, [New] on a directory or a file that does not
    exist returns the nil database with an error, and creates nothing. *)
Theorem New_missing_no_create (e : sys) (fname : string) (dpth : Z)
    (w : option (gmap string string)) :
  (w = None ∨ ∃ d, w = Some d ∧ d !! fname = None) →
  ∃ msg, New ini_Load e fname false dpth w = (None, w, Some (ErrIO msg)).
Proof.
  intros [->|(d & -> & Hd)]; unfold New; simpl; [by eexists|].
  unfold ini_LoadFile. rewrite Hd. simpl. by eexists.
Qed.

(** The text of a database that holds the default table only, without
    records: the header and one empty line, in every order of [range]. *)
Lemma render_default_only (e : sys) :
  range_ok e → render e {[ "" := ∅ ]} = auto ++ nl ++ nl.
Proof.
  intros [Ht Hr]. unfold render, render_section.
  rewrite map_to_list_singleton.
  pose proof (Ht [("", ∅)]) as H1. apply Permutation_singleton_r in H1.
  rewrite H1. simpl. rewrite map_to_list_empty.
  pose proof (Hr "" []) as H2. apply Permutation_nil_r in H2.
  by rewrite H2.
Qed.

(** X29. When [New] creates the database (it returns [ErrCreated]), the
    database holds the default table only, without records, and the file
    [New] wrote holds the header line and one empty line, whatever the
    order of [range]. *)
Theorem New_created_file (e : sys) (fname : string) (create : bool)
    (dpth : Z) (w w' : option (gmap string string)) (i : INIDB) :
  range_ok e →
  New ini_Load e fname create dpth w = (Some i, w', Some ErrCreated) →
  tables i = {[ "" := ∅ ]} ∧
  ∃ d', w' = Some d' ∧ d' !! fname = Some (auto ++ nl ++ nl).
Proof.
  intros Hrange. unfold New.
  assert (Hsave : ∀ d i1 d1,
    Save e (mkINIDB fname dpth true true (Section_ "" ∅)) d = (i1, d1, None) →
    tables i1 = {[ "" := ∅ ]} ∧ d1 !! fname = Some (auto ++ nl ++ nl)).
  { intros d i1 d1 H. apply Save_created in H as [-> Hf]; [|done..].
    simpl in *. split; [done|]. rewrite Hf. f_equal.
    by apply render_default_only. }
  destruct w as [d0|]; [|destruct create]; simpl;
    try (intros; by simplify_eq).
  - unfold ini_LoadFile. destruct (d0 !! fname) as [text|].
    + destruct (ini_Load text) as [t bad]. simpl.
      destruct bad; intros; simplify_eq.
    + destruct create; simpl; [|intros; simplify_eq].
      destruct (Save e _ d0) as [[i1 d1] [err1|]] eqn:Hs;
        intros; simplify_eq.
      destruct (Hsave _ _ _ Hs) as [Ht Hf]. split; [done|]. by exists d1.
  - change (ini_LoadFile ini_Load fname ∅) with
      (∅ : gmap string (gmap string string), true, false).
    simpl.
    destruct (Save e _ ∅) as [[i1 d1] [err1|]] eqn:Hs; intros; simplify_eq.
    destruct (Hsave _ _ _ Hs) as [Ht Hf]. split; [done|]. by exists d1.
Qed.

End inidb_new.

Section inidb_examples.
Import inidb.

Lemma Set_then_Get_witness :
  tables example_db !! "peers" = Some (Records "peers" example_db) ∧
  ∃ i', Set_ "peers" "carol" "3" example_db = (i', None) ∧
        Get "peers" "carol" i' = ("3", None) ∧
        dirty i' = true ∧
        ∀ t' k', (t', k') ≠ ("peers", "carol") →
                 Get t' k' i' = Get t' k' example_db.
Proof.
  split; [vm_compute; reflexivity|].
  apply (Set_then_Get example_db "peers" "carol" "3"
           (Records "peers" example_db)).
  vm_compute; reflexivity.
Defined.

Lemma Del_then_Get_witness :
  tables example_db !! "peers" = Some (Records "peers" example_db) ∧
  ∃ i', Del "peers" "alice" example_db = (i', None) ∧
        Get "peers" "alice" i' = ("", Some ErrNotFound) ∧
        dirty i' = true ∧
        ∀ t' k', (t', k') ≠ ("peers", "alice") →
                 Get t' k' i' = Get t' k' example_db.
Proof.
  split; [vm_compute; reflexivity|].
  apply (Del_then_Get example_db "peers" "alice"
           (Records "peers" example_db)).
  vm_compute; reflexivity.
Defined.

Lemma NewTable_not_saved_witness :
  dirty empty_db = false ∧
  Save (sys_at 123456 "20230104.000000.000000000") (NewTable "peers" empty_db)
    example_dir = (NewTable "peers" empty_db, example_dir, None).
Proof.
  split; [reflexivity|].
  apply (NewTable_not_saved (sys_at 123456 "20230104.000000.000000000")
           "peers" empty_db example_dir).
  reflexivity.
Defined.

Lemma DelTable_removes_witness :
  tables example_db !! "peers" = Some (Records "peers" example_db) ∧
  ∃ i', DelTable "peers" example_db = (i', None) ∧
        dirty i' = true ∧
        (∀ k, Get "peers" k i' = ("", Some ErrNotFound)) ∧
        (∀ k v, Set_ "peers" k v i' = (i', Some ErrNotFound)) ∧
        (∀ k, Del "peers" k i' = (i', Some ErrNotFound)) ∧
        DelTable "peers" i' = (i', Some ErrNotFound) ∧
        ∀ t', t' ≠ "peers" → tables i' !! t' = tables example_db !! t'.
Proof.
  split; [vm_compute; reflexivity|].
  apply (DelTable_removes example_db "peers" (Records "peers" example_db)).
  vm_compute; reflexivity.
Defined.

Lemma Save_twice_witness :
  ∃ i' d',
    Save (sys_at 123456 "20230104.000000.000000000") example_db example_dir
      = (i', d', None) ∧
    Save (sys_other "20230105.000000.000000000") i' d' = (i', d', None).
Proof.
  destruct (Save (sys_at 123456 "20230104.000000.000000000") example_db
              example_dir) as [[i' d'] [err|]] eqn:H.
  - pose proof (f_equal snd H) as He. vm_compute in He. discriminate He.
  - exists i', d'. split; [reflexivity|].
    exact (Save_twice (sys_at 123456 "20230104.000000.000000000")
             (sys_other "20230105.000000.000000000") example_db i'
             example_dir d' H).
Defined.

Lemma Save_original_missing_witness :
  let e := sys_other "20230104.000000.000000000" in
  let d := <["conf7ig" := "taken"]> missing_dir in
  dirty star_db = true ∧
  created star_db = false ∧
  d !! filename star_db = None ∧
  match CreateTemp e (filename star_db) d with
  | None =>
      Save e star_db d
        = (star_db, d, Some (ErrIO "could not create temporary file"))
  | Some (f, _) =>
      Save e star_db d =
        (star_db, <[f := render e (tables star_db)]> d,
         Some (ErrIO "could not rename original file")) ∧
      d !! f = None
  end.
Proof.
  intros e d.
  split; [reflexivity|]. split; [reflexivity|].
  split; [vm_compute; reflexivity|].
  apply (Save_original_missing e star_db d).
  - reflexivity.
  - reflexivity.
  - vm_compute; reflexivity.
Defined.

(** The save of the witness: the temporary file is left behind under a
    name where the number is in place of the star. *)
Example Save_original_missing_example :
  let e := sys_other "20230104.000000.000000000" in
  Save e star_db (<["conf7ig" := "taken"]> missing_dir)
  = (star_db,
     {[ "conf7ig" := "taken"; "conf8ig" := render e (tables star_db);
        "other" := "o" ]},
     Some (ErrIO "could not rename original file")).
Proof. vm_compute. reflexivity. Qed.

Lemma Save_other_entries_witness :
  is_Some (star_dir !! "conf7ig") ∧
  "conf7ig" ≠ filename star_db ∧
  String.prefix (filename star_db ++ ".") "conf7ig" = false ∧
  (Save (sys_other "20230104.000000.000000000") star_db star_dir).1.2
    !! "conf7ig" = star_dir !! "conf7ig".
Proof.
  assert (is_Some (star_dir !! "conf7ig")) as Hs
    by (exists "taken"; vm_compute; reflexivity).
  split; [exact Hs|].
  split; [intros H; vm_compute in H; discriminate H|].
  split; [vm_compute; reflexivity|].
  apply (Save_other_entries (sys_other "20230104.000000.000000000") star_db
           star_dir "conf7ig").
  - exact Hs.
  - intros H; vm_compute in H; discriminate H.
  - vm_compute; reflexivity.
Defined.

Lemma prune_keeps_newest_witness :
  let e := sys_other "20230104.000000.000000000" in
  0 ≤ depth example_db ∧
  let bs := backups (filename example_db) example_dir in
  let n := (length bs - Z.to_nat (depth example_db))%nat in
  backups (filename example_db) (prune e example_db example_dir).1 =
    (List.filter (Remove_fails e) (take n bs) ++ drop n bs)%list.
Proof.
  intros e. split; [simpl; lia|].
  apply (prune_keeps_newest e example_db example_dir). simpl; lia.
Defined.

(** The prune of the witness, at depth two on three backups: the oldest
    one is the one to go, and it stays, since it cannot be removed. *)
Example prune_example_locked :
  backups "config"
    (prune (sys_other "20230104.000000.000000000") example_db example_dir).1
  = ["config.20230101.000000.000000000"; "config.20230102.000000.000000000";
     "config.20230103.000000.000000000"].
Proof. vm_compute. reflexivity. Qed.

Lemma New_database_witness :
  ∃ i w' err,
    New ini_Load_empty (sys_at 123456 "20230104.000000.000000000") "config"
      true (-1) None = (Some i, w', err) ∧
    is_Some (tables i !! "") ∧
    filename i = "config" ∧ depth i = -1 ∧ dirty i = false ∧
    ((err = None ∧ created i = false ∧ w' = None) ∨
     (err = Some ErrCreated ∧ created i = true ∧ true = true ∧
      ∃ d', w' = Some d' ∧
            d' !! "config"
              = Some (render (sys_at 123456 "20230104.000000.000000000")
                        (tables i)))).
Proof.
  destruct (New ini_Load_empty (sys_at 123456 "20230104.000000.000000000")
              "config" true (-1) None) as [[[i|] w'] err] eqn:H.
  - exists i, w', err. split; [reflexivity|].
    exact (New_database ini_Load_empty
             (sys_at 123456 "20230104.000000.000000000")
             "config" true (-1) None w' i err H).
  - pose proof (f_equal (λ r, r.1.1) H) as Hi. vm_compute in Hi.
    discriminate Hi.
Defined.

Lemma range_ok_sys_other (now : string) : range_ok (sys_other now).
Proof.
  split; [intros l | intros t l]; simpl; apply reverse_Permutation.
Defined.

Lemma New_created_file_witness :
  range_ok (sys_other "20230104.000000.000000000") ∧
  ∃ i w',
    New ini_Load_empty (sys_other "20230104.000000.000000000") "conf*ig"
      true 3 (Some missing_dir) = (Some i, w', Some ErrCreated) ∧
    tables i = {[ "" := ∅ ]} ∧
    ∃ d', w' = Some d' ∧ d' !! "conf*ig" = Some (auto ++ nl ++ nl).
Proof.
  split; [apply range_ok_sys_other|].
  destruct (New ini_Load_empty (sys_other "20230104.000000.000000000")
              "conf*ig" true 3 (Some missing_dir))
    as [[[i|] w'] err] eqn:H.
  - pose proof (f_equal snd H) as He. vm_compute in He. destruct He.
    exists i, w'. split; [reflexivity|].
    exact (New_created_file ini_Load_empty
             (sys_other "20230104.000000.000000000") "conf*ig" true 3
             (Some missing_dir) w' i (range_ok_sys_other _) H).
  - pose proof (f_equal (λ r, r.1.1) H) as Hi. vm_compute in Hi.
    discriminate Hi.
Defined.

Lemma New_missing_no_create_witness :
  (Some missing_dir = None ∨
   ∃ d, Some missing_dir = Some d ∧ d !! "config" = None) ∧
  ∃ msg,
    New ini_Load_empty (sys_at 123456 "20230104.000000.000000000") "config"
      false 3 (Some missing_dir)
      = (None, Some missing_dir, Some (ErrIO msg)).
Proof.
  assert (Some missing_dir = None ∨
          ∃ d, Some missing_dir = Some d ∧ d !! "config" = None) as Hw.
  { right. exists missing_dir. split; [reflexivity | vm_compute; reflexivity]. }
  split; [exact Hw|].
  exact (New_missing_no_create ini_Load_empty
           (sys_at 123456 "20230104.000000.000000000") "config" 3
           (Some missing_dir) Hw).
Defined.

End inidb_examples.

(** ** The chat window: unread messages *)

Section window_unread.
Import chatmsg.

Context {embeddedArgs : Type}.
Variable parseEmbedArgs : string → embeddedArgs.
Variable embedRegexp : Regexp.
Variable urlRegexp : Regexp.
Variable regexp_Compile : string → option Regexp.

Implicit Types (cw : chatWindow embeddedArgs) (m : chatMsg embeddedArgs).

(** X14. [appendMsg] puts the message last. When nothing is unread and the
    message is the user's own, internal or help, nothing is unread after it;
    in every other case the number of unread messages grows by one, so a
    message of the user counts as unread when unread messages are already
    waiting. [markAllRead] brings the number to zero and keeps the
    messages. *)
Theorem appendMsg_unreadCount m cw :
  msgs (appendMsg (Some m) cw) = (msgs cw ++ [m])%list ∧
  unreadCount (appendMsg (Some m) cw) =
    (if (mine m || internal m || help m) && (unreadCount cw =? 0)
     then 0 else unreadCount cw + 1) ∧
  unreadCount (markAllRead cw) = 0 ∧
  msgs (markAllRead cw) = msgs cw.
Proof.
  unfold appendMsg, markAllRead, unreadCount.
  pose proof (len_msgs_snoc cw m) as Hlen.
  assert (Heq : (len_msgs cw - unreadIdx cw =? 0) = (unreadIdx cw =? len_msgs cw)).
  { destruct (Z.eqb_spec (unreadIdx cw) (len_msgs cw)) as [->|?].
    - rewrite Z.sub_diag. done.
    - apply Z.eqb_neq. lia. }
  rewrite Heq.
  destruct ((mine m || internal m || help m) && (unreadIdx cw =? len_msgs cw));
    simpl; unfold len_msgs in *; simpl in *; repeat split; lia.
Qed.

(** X15. [manyHelpMsgs] appends one help message for every call of the
    closure and does not move the index of the first unread message: the
    help it prints counts as unread, even when everything was read, where
    [appendMsg] of a help message would have counted it as read. *)
Theorem manyHelpMsgs_unread (f : list (Z * string)) cw cw' :
  manyHelpMsgs parseEmbedArgs embedRegexp urlRegexp regexp_Compile f cw
    = Some cw' →
  unreadIdx cw' = unreadIdx cw ∧
  unreadCount cw' = unreadCount cw + Z.of_nat (length f) ∧
  ∃ new, msgs cw' = (msgs cw ++ new)%list ∧ length new = length f ∧
         Forall (λ m, help m = true ∧ mine m = false ∧ internal m = false) new.
Proof.
  revert cw. induction f as [|p f IH]; intros cw Hm; simpl in Hm.
  - simplify_eq. unfold unreadCount. repeat split; [simpl; lia|].
    exists []. by rewrite app_nil_r.
  - destruct (helpMsg _ _ _ _ cw p) as [cw1|] eqn:H1; [|done]. simpl in Hm.
    unfold helpMsg in H1.
    destruct (parse _ _ _ _ _ _) as [els|]; [|done]. simpl in H1.
    injection H1 as <-.
    destruct (IH _ Hm) as (Hidx & Hcount & new & Hnew & Hlen & Hall).
    simpl in Hidx, Hnew. split; [done|]. split.
    + rewrite Hcount. unfold unreadCount, len_msgs. simpl.
      rewrite length_app. simpl. lia.
    + eexists (_ :: new). split; [by rewrite Hnew, <- app_assoc|].
      split; [simpl; by rewrite Hlen|]. by constructor.
Qed.

Local Arguments appendMsg : simpl never.

Lemma appendMsg_prefix (o : option (chatMsg embeddedArgs)) cw :
  ∃ new, msgs (appendMsg o cw) = (msgs cw ++ new)%list.
Proof.
  destruct o as [m|]; [|exists []; by rewrite app_nil_r].
  exists [m]. apply appendMsg_unreadCount.
Qed.

(** X16. The messages of a window only grow: after any sequence of calls
    the messages from before are still there, in place, and the new ones
    come after them. *)
Theorem run_append_only (cs : list (call embeddedArgs)) cw cw' :
  run parseEmbedArgs embedRegexp urlRegexp regexp_Compile cs cw = Some cw' →
  ∃ new, msgs cw' = (msgs cw ++ new)%list.
Proof.
  revert cw. induction cs as [|c cs IH]; intros cw Hr; simpl in Hr.
  - simplify_eq. exists []. by rewrite app_nil_r.
  - destruct (exec _ _ _ _ c cw) as [cw1|] eqn:H1; [|done]. simpl in Hr.
    destruct (IH _ Hr) as [new2 Hnew2].
    assert (∃ new1, msgs cw1 = (msgs cw ++ new1)%list) as [new1 Hnew1].
    { destruct c; simpl in H1.
      - simplify_eq. apply appendMsg_prefix.
      - unfold newUnsentPM in H1.
        destruct (parse _ _ _ _ _ _); [|done]. simpl in H1. simplify_eq.
        apply appendMsg_prefix.
      - unfold newInternalMsg in H1.
        destruct (parse _ _ _ _ _ _); [|done]. simpl in H1. simplify_eq.
        apply appendMsg_prefix.
      - apply manyHelpMsgs_unread in H1 as (_ & _ & new & Hn & _). eauto.
      - unfold newRecvdMsg in H1.
        destruct (parse _ _ _ _ _ _); [|done]. simpl in H1. simplify_eq.
        apply appendMsg_prefix.
      - simplify_eq. exists []. simpl. by rewrite app_nil_r. }
    exists (new1 ++ new2)%list. by rewrite Hnew2, Hnew1, <- app_assoc.
Qed.

End window_unread.

(** ** Parsing a message into elements *)

Section parsing.
Import chatmsg tui.

Context {embeddedArgs : Type}.
Variable parseEmbedArgs : string → embeddedArgs.
Variable embedRegexp : Regexp.
Variable urlRegexp : Regexp.
Variable regexp_Compile : string → option Regexp.

Implicit Types (el : chatMsgEl embeddedArgs) (l : list (chatMsgEl embeddedArgs)).
Implicit Types (mk : string → chatMsgEl embeddedArgs) (re : Regexp).

Lemma one_kind_textEl (s : string) :
  one_kind (textEl (embeddedArgs := embeddedArgs) s) = true.
Proof. by destruct s. Qed.

Lemma splitAt_one_kind mk (s : string) (positions : list (nat * nat))
    (lastEnd : nat) l :
  (∀ m, one_kind (mk m) = true) →
  splitAt mk s lastEnd positions = Some l →
  Forall (λ el, one_kind el = true) l.
Proof.
  intros Hmk. revert lastEnd l.
  induction positions as [|pos rest IH]; intros lastEnd l H; simpl in H.
  - destruct (slice s lastEnd _); simplify_eq/=.
    constructor; [apply one_kind_textEl | constructor].
  - destruct (slice s lastEnd _); [|done]. simpl in H.
    destruct (slice s pos.1 _); [|done]. simpl in H.
    destruct (splitAt mk s pos.2 rest) as [tl|] eqn:Htl; [|done].
    simpl in H. simplify_eq.
    constructor; [apply one_kind_textEl|]. constructor; [apply Hmk | eauto].
Qed.

Lemma splitWith_cons re mk el l :
  splitWith re mk (el :: l) =
    if String.eqb (text el) "" then cons el <$> splitWith re mk l
    else
      match re (text el) with
      | [] => cons el <$> splitWith re mk l
      | positions =>
          new ← splitAt mk (text el) 0 positions;
          tl ← splitWith re mk l;
          Some (new ++ tl)%list
      end.
Proof. reflexivity. Qed.

Lemma splitWith_one_kind re mk l l' :
  (∀ m, one_kind (mk m) = true) →
  Forall (λ el, one_kind el = true) l →
  splitWith re mk l = Some l' →
  Forall (λ el, one_kind el = true) l'.
Proof.
  intros Hmk Hl. revert l'.
  induction Hl as [|el l Hel Hl IH]; intros l' H.
  - simpl in H. simplify_eq. constructor.
  - rewrite splitWith_cons in H.
    destruct (splitWith re mk l) as [tl|].
    + specialize (IH tl eq_refl).
      destruct (String.eqb (text el) ""); [simplify_eq/=; by constructor|].
      destruct (re (text el)) as [|pos rest];
        [simplify_eq/=; by constructor|].
      destruct (splitAt mk (text el) 0 (pos :: rest)) as [new|] eqn:Hnew;
        [|done].
      cbn [mbind option_bind] in H. simplify_eq.
      apply Forall_app. split; [|done]. eapply splitAt_one_kind; eauto.
    + destruct (String.eqb (text el) ""); [done|].
      destruct (re (text el)) as [|pos rest]; [done|].
      by destruct (splitAt mk (text el) 0 (pos :: rest)).
Qed.

Lemma parseLine_one_kind (line mention_ : string) l l' :
  Forall (λ el, one_kind el = true) l →
  parseLine parseEmbedArgs embedRegexp urlRegexp regexp_Compile
    line mention_ l = Some l' →
  Forall (λ el, one_kind el = true) l'.
Proof.
  intros Hl. unfold parseLine, splitEmbeds, splitURLs, splitMentions.
  destruct (splitWith embedRegexp _ _) as [l1|] eqn:H1; [|done].
  cbn [mbind option_bind].
  destruct (splitWith urlRegexp _ l1) as [l2|] eqn:H2; [|done].
  cbn [mbind option_bind].
  assert (Hl1 : Forall (λ el, one_kind el = true) l1).
  { eapply splitWith_one_kind; [| |exact H1]; [done|].
    apply Forall_app. split; [done|].
    constructor; [apply one_kind_textEl | constructor]. }
  assert (Hl2 : Forall (λ el, one_kind el = true) l2).
  { eapply splitWith_one_kind; [| |exact H2]; done. }
  destruct (String.eqb mention_ ""); [by intros [= <-]|].
  destruct (regexp_Compile _) as [re|]; [|by intros [= <-]].
  intros H3. eapply splitWith_one_kind; [| |exact H3]; done.
Qed.

Lemma one_kind_plain el : one_kind el = true → plain el = true.
Proof.
  unfold one_kind, plain.
  by destruct (text el), (embed el), (mention el), (url el).
Qed.

(** The lists [parseLine] hands to [splitURLs] and to [splitMentions] have
    the shape [split_preserves_content] asks for. *)
Lemma parseLine_lists_plain (line : string) l l1 :
  Forall (λ el, one_kind el = true) l →
  splitEmbeds parseEmbedArgs embedRegexp (l ++ [textEl line])%list = Some l1 →
  Forall (λ el, plain el = true) l1 ∧
  ∀ l2, splitURLs urlRegexp l1 = Some l2 → Forall (λ el, plain el = true) l2.
Proof.
  intros Hl H1. unfold splitEmbeds, splitURLs in *.
  assert (Hl1 : Forall (λ el, one_kind el = true) l1).
  { eapply splitWith_one_kind; [| |exact H1]; [done|].
    apply Forall_app. split; [done|].
    constructor; [apply one_kind_textEl | constructor]. }
  split.
  - eapply Forall_impl; [exact Hl1|]. intros el. apply one_kind_plain.
  - intros l2 H2.
    assert (Hl2 : Forall (λ el, one_kind el = true) l2)
      by (eapply splitWith_one_kind; [| |exact H2]; done).
    eapply Forall_impl; [exact Hl2|]. intros el. apply one_kind_plain.
Qed.

(** X17. The elements [parseMsgIntoElements] builds carry one payload each:
    a text, an embed, a mention or a url, never two of them, so that the
    order in which the renderer looks at the fields drops nothing. There is
    one list of elements for every line of the message, and at least one. *)
Theorem parseMsgIntoElements_one_kind (text_ mention_ : string)
    (ls : list (list (chatMsgEl embeddedArgs))) :
  parseMsgIntoElements parseEmbedArgs embedRegexp urlRegexp regexp_Compile
    text_ mention_ = Some ls →
  Forall (Forall (λ el, one_kind el = true)) ls ∧
  length ls = length (split_lines text_) ∧
  ls ≠ [].
Proof.
  unfold parseMsgIntoElements. intros H.
  pose proof (length_mapM _ _ _ H) as Hlen.
  apply mapM_Some in H. split; [|split; [done|]].
  - clear Hlen. induction H as [|line l lines ls Hl _ IH]; [constructor|].
    constructor; [|done].
    unfold parseMsgLine in Hl. eapply parseLine_one_kind; [|exact Hl].
    constructor.
  - intros ->. destruct text_ as [|c r]; simpl in Hlen; [done|].
    destruct (Ascii.eqb c _); [done|]. by destruct (split_lines r).
Qed.

Lemma join_split_lines (s : string) : join_lines (split_lines s) = s.
Proof.
  induction s as [|c r IH]; [done|]. simpl split_lines.
  destruct (Ascii.eqb_spec c (ascii_of_nat 10)) as [->|Hc].
  - destruct (split_lines r) as [|h t] eqn:Hr; [by destruct r; simplify_eq/=; repeat case_match|].
    change (join_lines ("" :: h :: t)) with ("" ++ newline ++ join_lines (h :: t)).
    rewrite IH. reflexivity.
  - destruct (split_lines r) as [|h t] eqn:Hr.
    + simpl in IH. by rewrite <- IH.
    + destruct t as [|h' t].
      * simpl in *. by rewrite IH.
      * change (join_lines (String c h :: h' :: t))
          with (String c h ++ newline ++ join_lines (h' :: t)).
        change (join_lines (h :: h' :: t))
          with (h ++ newline ++ join_lines (h' :: t)) in IH.
        by rewrite append_cons, IH.
Qed.

Hypothesis urlRegexp_ok : regexp_ok urlRegexp.
Hypothesis regexp_Compile_ok :
  ∀ pattern re, regexp_Compile pattern = Some re → regexp_ok re.

Lemma regexp_ok_valid re l :
  regexp_ok re → Forall (λ el, valid_matches re el = true) l.
Proof. intros Hre. apply Forall_forall. intros el _. apply Hre. Qed.

(** A line without embeds is parsed into elements that spell it. *)
Lemma parseLine_content (line mention_ : string) :
  embedRegexp line = [] →
  ∃ l, parseMsgLine parseEmbedArgs embedRegexp urlRegexp regexp_Compile
         line mention_ = Some l ∧
       content l = line.
Proof.
  intros Hembed. unfold parseMsgLine, parseLine, splitEmbeds, splitURLs.
  assert (H1 : splitWith embedRegexp (embedEl parseEmbedArgs)
                 ([] ++ [textEl line]) = Some [textEl line]).
  { simpl. rewrite Hembed. by destruct (String.eqb line ""). }
  rewrite H1. cbn [mbind option_bind].
  assert (Hu : ∀ m, el_content (urlEl (embeddedArgs := embeddedArgs) m) = m)
    by done.
  assert (Hm : ∀ m, el_content (mentionEl (embeddedArgs := embeddedArgs) m) = m).
  { intros m. unfold el_content. simpl. by rewrite append_nil_r. }
  destruct (splitWith_content urlRegexp urlEl [textEl line] Hu)
    as (l2 & H2 & Hc2 & Hp2); [done | | by apply regexp_ok_valid |].
  { constructor; [apply plain_textEl | constructor]. }
  rewrite H2. cbn [mbind option_bind].
  assert (Hline : content l2 = line).
  { rewrite Hc2. simpl. by rewrite el_content_textEl, append_nil_r. }
  destruct (String.eqb mention_ ""); [by exists l2|].
  unfold splitMentions.
  destruct (regexp_Compile _) as [re|] eqn:Hre; [|by exists l2].
  destruct (splitWith_content re mentionEl l2 Hm) as (l3 & H3 & Hc3 & _);
    [done | done | apply regexp_ok_valid; eauto |].
  exists l3. split; [done|]. by rewrite Hc3.
Qed.

(** X18. A message without embeds is parsed without a panic, and no
    character of it is lost: the contents of the elements of each line, put
    together with newlines between the lines, are the message. *)
Theorem parseMsgIntoElements_content (text_ mention_ : string) :
  Forall (λ line, embedRegexp line = []) (split_lines text_) →
  ∃ ls, parseMsgIntoElements parseEmbedArgs embedRegexp urlRegexp
          regexp_Compile text_ mention_ = Some ls ∧
        join_lines (content <$> ls) = text_.
Proof.
  intros Hembed. unfold parseMsgIntoElements.
  assert (Hgen : ∃ ls,
    mapM (λ line, parseMsgLine parseEmbedArgs embedRegexp urlRegexp
                    regexp_Compile line mention_) (split_lines text_) = Some ls ∧
    join_lines (content <$> ls) = join_lines (split_lines text_)).
  { induction Hembed as [|line lines Hline _ (ls & Hls & Hjoin)].
    - by exists [].
    - destruct (parseLine_content line mention_ Hline) as (l & Hl & Hc).
      exists (l :: ls). simpl mapM. rewrite Hl. cbn [mbind option_bind].
      rewrite Hls. cbn [mbind option_bind mret option_ret].
      split; [done|].
      apply length_mapM in Hls.
      destruct lines as [|line' lines]; destruct ls as [|l' ls];
        simplify_eq/=; [done|].
      change (join_lines (content l' :: (content <$> ls)))
        with (join_lines (content <$> (l' :: ls))).
      by rewrite Hjoin. }
  destruct Hgen as (ls & Hls & Hjoin). exists ls.
  by rewrite Hjoin, join_split_lines.
Qed.

End parsing.

(** ** The matchers of the examples *)

Section matchers.
Import chatmsg.

Lemma length_substring (n m : nat) (s : string) :
  (String.length (substring n m s) ≤ String.length s - n)%nat.
Proof.
  revert n m. induction s as [|c s IH]; intros [|n] [|m]; simpl; try lia.
  - specialize (IH 0%nat m). lia.
  - apply IH.
  - apply IH.
Qed.

Lemma prefix_length (a b : string) :
  String.prefix a b = true → (String.length a ≤ String.length b)%nat.
Proof.
  revert b. induction a as [|x a IH]; intros [|y b] H; simpl in *;
    try done; try lia.
  destruct (ascii_dec x y); [|done]. apply IH in H. lia.
Qed.

(** The matches [scan] lists are successive and inside the string, when
    every match ends at or after its start and inside the string. *)
Lemma scan_valid (match_at : string → nat → option nat) (s : string) :
  (∀ i j, (i ≤ String.length s)%nat → match_at s i = Some j →
          (i ≤ j ≤ String.length s)%nat) →
  ∀ fuel i lastEnd, (lastEnd ≤ i)%nat → (lastEnd ≤ String.length s)%nat →
    valid_positions (String.length s) lastEnd (scan match_at s fuel i) = true.
Proof.
  intros Hm. induction fuel as [|fuel IH]; intros i lastEnd Hi Hl; simpl.
  - by apply Nat.leb_le.
  - destruct (Nat.ltb_spec (String.length s) i) as [|Hlen]; simpl.
    + by apply Nat.leb_le.
    + destruct (match_at s i) as [j|] eqn:Hj.
      * destruct (Hm i j Hlen Hj) as [H1 H2]. simpl.
        rewrite (proj2 (Nat.leb_le _ _) Hi), (proj2 (Nat.leb_le _ _) H1),
          (proj2 (Nat.leb_le _ _) H2). simpl.
        apply IH; [|done]. destruct (Nat.ltb_spec i j); lia.
      * apply IH; [lia | done].
Qed.

Lemma find_word_ok (w : string) : regexp_ok (find_word w).
Proof.
  intros s. unfold find_word. apply scan_valid; [|lia..].
  intros i j Hi. unfold match_word.
  destruct (boundary s i); [|done]. simpl.
  destruct (String.prefix w _) eqn:Hp; [|done]. simpl.
  destruct (boundary s _); [|done]. intros [= <-].
  apply prefix_length in Hp.
  pose proof (length_substring i (String.length s - i) s). lia.
Qed.

Lemma run_length_le (s : string) : (run_length s ≤ String.length s)%nat.
Proof.
  induction s as [|c s IH]; simpl; [lia|]. destruct (isSpace c); lia.
Qed.

Lemma last_boundary_bound (s : string) (i k j : nat) :
  last_boundary s i k = Some j → (i ≤ j ≤ i + k)%nat.
Proof.
  induction k as [|k IH]; simpl; [done|].
  destruct (_ && _); [intros [= <-]; lia|]. intros H%IH. lia.
Qed.

Lemma find_url_ok : regexp_ok find_url.
Proof.
  intros s. unfold find_url. apply scan_valid; [|lia..].
  intros i j Hi. unfold match_url.
  destruct (_ && _); [|done]. intros H%last_boundary_bound.
  pose proof (run_length_le (substring i (String.length s - i) s)).
  pose proof (length_substring i (String.length s - i) s). lia.
Qed.

Lemma compile_word_ok (pattern : string) (re : Regexp) :
  compile_word pattern = Some re → regexp_ok re.
Proof.
  unfold compile_word. destruct (_ && _); [|done]. intros [= <-].
  apply find_word_ok.
Qed.

Lemma find_nothing_ok : regexp_ok find_nothing.
Proof. by intros s. Qed.

End matchers.

(** ** The terminal client: selection, wrapping, confirmation *)

Section tui_props.
Import chatmsg tui.

Lemma wrap64_small (z : Z) : - 2 ^ 63 ≤ z < 2 ^ 63 → wrap64 z = z.
Proof. intros H. unfold wrap64. rewrite Z.mod_small; lia. Qed.

(** X19. [changeSelectedEmbed] by one step, on a selection inside the
    embeds of the window (or at zero when there is none): the selection
    stays inside; the call answers false exactly at the end it would leave,
    and then the window is as before; otherwise the selection moves by the
    step. *)
Theorem changeSelectedEmbed_step {embeddedArgs : Type} (delta : Z)
    (cw : chatWindow embeddedArgs) :
  delta = 1 ∨ delta = -1 →
  0 ≤ selEmbed cw ≤ Z.max 0 (maxEmbeds cw - 1) →
  0 ≤ maxEmbeds cw < 2 ^ 62 →
  let r := changeSelectedEmbed delta cw in
  0 ≤ selEmbed r.2 ≤ Z.max 0 (maxEmbeds r.2 - 1) ∧
  (r.1 = false ↔
     (selEmbed cw = 0 ∧ delta = -1) ∨
     (selEmbed cw = Z.max 0 (maxEmbeds cw - 1) ∧ delta = 1)) ∧
  (r.1 = false → r.2 = cw) ∧
  (r.1 = true → r.2 = set_selEmbed (selEmbed cw + delta) cw).
Proof.
  intros Hdelta Hsel Hmax. unfold changeSelectedEmbed.
  rewrite (wrap64_small (maxEmbeds cw - 1)) by lia.
  destruct Hdelta as [-> | ->].
  - replace (1 >? 0) with true by done. replace (1 <? 0) with false by done.
    rewrite andb_false_r, andb_true_r.
    destruct (Z.geb_spec (selEmbed cw) (maxEmbeds cw - 1)) as [Hge|Hlt];
      simpl; [|rewrite wrap64_small by lia];
      repeat split; try done; try lia;
      try (intros _; first [left; lia | right; lia]);
      try (intros [[? ?]|[? ?]]; lia).
  - replace (-1 >? 0) with false by done.
    replace (-1 <? 0) with true by done.
    rewrite andb_false_r, andb_true_r.
    destruct (Z.eqb_spec (selEmbed cw) 0) as [H0|Hn0];
      simpl; [|rewrite wrap64_small by lia];
      repeat split; try done; try lia;
      try (intros _; first [left; lia | right; lia]);
      try (intros [[? ?]|[? ?]]; lia).
Qed.

End tui_props.

Section tui_wrapping.
Import chatmsg tui.

Variable Render : string → string.

Lemma spaced_app (a w : string) : spaced w → w ≠ "" → spaced (a ++ w).
Proof.
  intros [->|[p ->]] Hne; [done|]. right. exists (a ++ p).
  by rewrite append_assoc.
Qed.

Lemma SplitAfter_space_spec (s : string) :
  concat_strings (SplitAfter_space s) = s ∧
  init_spaced (SplitAfter_space s) ∧
  SplitAfter_space s ≠ [] ∧
  Forall (λ w, w ≠ "") (removelast (SplitAfter_space s)).
Proof.
  induction s as [|c s (Hc & Hi & Hne & Hnn)]; [by repeat split|].
  simpl SplitAfter_space.
  destruct (SplitAfter_space s) as [|h t] eqn:Hs; [done|].
  destruct (Ascii.eqb_spec c " ") as [->|Hsp].
  - repeat split; try done.
    + unfold concat_strings in *. simpl in *. by rewrite Hc.
    + right. by exists "".
    + simpl. constructor; [done|]. done.
  - repeat split; try done.
    + unfold concat_strings in *. simpl in *. by rewrite <- Hc.
    + destruct t as [|h' t]; [done|]. destruct Hi as [Hh Hi].
      split; [|done]. simpl in Hnn. apply Forall_cons in Hnn as [Hh0 _].
      destruct Hh as [->|[p ->]]; [done|]. right. exists (String c p).
      done.
    + destruct t as [|h' t]; [constructor|]. simpl in *.
      apply Forall_cons in Hnn as [_ Hnn]. by constructor.
Qed.

(** The loop of [writeWrappedWithStyle]: the builder grows by wrapped
    lines, and the wrapped lines with the line at hand are the line from
    before with the words. *)
Lemma wrapWord_fold (winW : Z) (ws : list string) (b line : string)
    (offset : Z) :
  spaced line → init_spaced ws → Forall (λ w, w ≠ "") (removelast ws) →
  ∃ lines b' line' offset',
    foldl (wrapWord Render winW) (b, line, offset) ws = (b', line', offset') ∧
    b' = b ++ rendered_lines Render lines ∧
    concat_strings lines ++ line' = line ++ concat_strings ws ∧
    Forall spaced lines.
Proof.
  revert b line offset.
  induction ws as [|w ws IH]; intros b line offset Hline Hws Hnn.
  - exists [], b, line, offset. simpl.
    unfold rendered_lines, concat_strings. simpl.
    by rewrite !append_nil_r.
  - assert (Hrest : init_spaced ws ∧ Forall (λ w, w ≠ "") (removelast ws) ∧
                    (ws ≠ [] → spaced w ∧ w ≠ "")).
    { destruct ws as [|w' ws]; [by repeat split|]. destruct Hws as [Hw Hws].
      simpl in Hnn. apply Forall_cons in Hnn as [Hw0 Hnn]. by repeat split. }
    destruct Hrest as (Hws' & Hnn' & Hw).
    assert (Hstep :
      wrapWord Render winW (b, line, offset) w
        = (b ++ Render line ++ newline, "" ++ w, 0) ∨
      wrapWord Render winW (b, line, offset) w = (b, line ++ w, offset)).
    { unfold wrapWord. destruct (wrap64 _ >? winW); auto. }
    change (foldl (wrapWord Render winW) (b, line, offset) (w :: ws))
      with (foldl (wrapWord Render winW)
              (wrapWord Render winW (b, line, offset) w) ws).
    destruct Hstep as [-> | ->].
    + assert (Hsp : ws ≠ [] → spaced ("" ++ w)).
      { intros H. rewrite append_nil_l. by apply Hw. }
      destruct ws as [|w' ws'].
      * exists [line], (b ++ Render line ++ newline), ("" ++ w), 0.
        simpl. unfold rendered_lines, concat_strings. simpl.
        rewrite !append_nil_r, append_nil_l. repeat split; try done.
        by constructor.
      * destruct (IH (b ++ Render line ++ newline) ("" ++ w) 0)
          as (lines & b' & line' & off' & Hf & Hb & Hc & Hl); [auto..|].
        exists (line :: lines), b', line', off'. split; [done|].
        split; [|split].
        -- rewrite Hb. unfold rendered_lines, concat_strings. simpl.
           by rewrite !append_assoc.
        -- unfold concat_strings in *. simpl.
           rewrite append_assoc, Hc, append_nil_l. done.
        -- by constructor.
    + destruct ws as [|w' ws'].
      * exists [], b, (line ++ w), offset. simpl.
        unfold rendered_lines, concat_strings. simpl.
        by rewrite !append_nil_r.
      * destruct (IH b (line ++ w) offset)
          as (lines & b' & line' & off' & Hf & Hb & Hc & Hl); [|auto..|].
        { destruct Hw as [Hw Hw0]; [done|]. by apply spaced_app. }
        exists lines, b', line', off'. split; [done|].
        split; [done|]. split; [|done].
        rewrite Hc. unfold concat_strings. simpl. by rewrite append_assoc.
Qed.

(** X20. [writeWrappedWithStyle] adds to the builder the text cut into
    lines, each line rendered and all but the last followed by a newline: no
    character of the text is lost or moved, and a line is only ended after a
    space (or is empty). *)
Theorem writeWrappedWithStyle_content (b : string) (offset winW : Z)
    (s : string) :
  ∃ lines last,
    (writeWrappedWithStyle Render b offset winW s).1
      = b ++ rendered_lines Render lines ++ Render last ∧
    concat_strings lines ++ last = s ∧
    Forall spaced lines.
Proof.
  unfold writeWrappedWithStyle.
  destruct (SplitAfter_space_spec s) as (Hc & Hi & _ & Hnn).
  destruct (wrapWord_fold winW (SplitAfter_space s) b "" offset)
    as (lines & b' & line' & off' & Hf & Hb & Hcs & Hl); [by left | done..|].
  rewrite Hf. exists lines, line'. simpl. split; [|split; [|done]].
  - by rewrite Hb, append_assoc.
  - by rewrite Hcs, append_nil_l.
Qed.

(** X21. [writeWrappedURL] writes the url in one piece: a newline goes
    before it exactly when it does not fit after the offset, and one goes
    after it exactly when it is longer than the window; the offset returned
    is inside the window. *)
Theorem writeWrappedURL_spec (b : string) (offset winW : Z) (url_ : string) :
  0 ≤ offset → 0 ≤ winW → offset + len url_ < 2 ^ 63 →
  ∃ pre post,
    writeWrappedURL b offset winW url_
      = (b ++ pre ++ url_ ++ post,
         (writeWrappedURL b offset winW url_).2) ∧
    (pre = (if offset + len url_ >? winW then newline else "")) ∧
    (post = (if len url_ >? winW then newline else "")) ∧
    0 ≤ (writeWrappedURL b offset winW url_).2 ≤ winW.
Proof.
  intros Ho Hw Hsum. unfold writeWrappedURL.
  assert (Hlen : 0 ≤ len url_) by (unfold len; lia).
  rewrite (wrap64_small (offset + len url_)) by lia.
  destruct (Z.gtb_spec (offset + len url_) winW) as [H1|H1].
  - rewrite (wrap64_small (0 + len url_)) by lia. rewrite Z.add_0_l.
    destruct (Z.gtb_spec (len url_) winW) as [H2|H2];
      eexists _, _; (split; [|split; [reflexivity|split; [reflexivity|]]]);
      simpl; try lia; by rewrite !append_assoc, ?append_nil_r.
  - rewrite (wrap64_small (offset + len url_)) by lia.
    destruct (Z.gtb_spec (offset + len url_) winW) as [H3|H3]; [lia|].
    destruct (Z.gtb_spec (len url_) winW) as [H2|H2]; [lia|].
    exists "", "". simpl. rewrite append_nil_r, append_nil_l.
    repeat split; try done; lia.
Qed.

Lemma len_append (a c : string) : len (a ++ c) = len a + len c.
Proof. unfold len. rewrite length_append. lia. Qed.

Lemma len_nonneg (a : string) : 0 ≤ len a.
Proof. unfold len. lia. Qed.

(** The loop of [writeWrappedWithStyle], with the widths: a line that is
    ended, and the line at hand, is empty, or one word, or fits in the
    window after its offset. *)
Lemma wrapWord_fold_fits (winW : Z) (W ws : list string) (b line : string)
    (offset : Z) :
  (∀ w, w ∈ ws → w ∈ W) →
  0 ≤ offset →
  offset + len line + len (concat_strings ws) + 1 < 2 ^ 63 →
  line = "" ∨ line ∈ W ∨ offset + len line < winW →
  ∃ lines b' line' offset',
    foldl (wrapWord Render winW) (b, line, offset) ws = (b', line', offset') ∧
    b' = b ++ rendered_lines Render lines ∧
    concat_strings lines ++ line' = line ++ concat_strings ws ∧
    (∀ i l, (lines ++ [line'])%list !! i = Some l →
            l = "" ∨ l ∈ W ∨
            match i with O => offset | S _ => 0 end + len l < winW) ∧
    offset' = match lines with [] => offset | _ :: _ => 0 end.
Proof.
  revert b line offset.
  induction ws as [|w ws IH]; intros b line offset HW Hoff Hbound Hinv.
  - exists [], b, line, offset. simpl.
    unfold rendered_lines, concat_strings. simpl.
    rewrite !append_nil_r. repeat split; try done.
    intros [|i] l Hl; simplify_eq/=. done.
  - assert (Hcat : concat_strings (w :: ws) = w ++ concat_strings ws)
      by reflexivity.
    rewrite Hcat, len_append in Hbound.
    pose proof (len_nonneg line) as Hl0. pose proof (len_nonneg w) as Hw0.
    pose proof (len_nonneg (concat_strings ws)) as Hc0.
    change (foldl (wrapWord Render winW) (b, line, offset) (w :: ws))
      with (foldl (wrapWord Render winW)
              (wrapWord Render winW (b, line, offset) w) ws).
    unfold wrapWord at 2.
    rewrite (wrap64_small (len line + offset)) by lia.
    rewrite (wrap64_small (len line + offset + len w)) by lia.
    rewrite (wrap64_small (len line + offset + len w + 1)) by lia.
    destruct (Z.gtb_spec (len line + offset + len w + 1) winW) as [Hgt|Hle].
    + destruct (IH (b ++ Render line ++ newline) ("" ++ w) 0)
        as (lines & b' & line' & off' & Hf & Hb & Hc & Hfit & Hoff');
        [intros w' Hw'; apply HW; by right | lia | | |].
      { rewrite append_nil_l. lia. }
      { right; left. rewrite append_nil_l. apply HW. by left. }
      exists (line :: lines), b', line', off'. split; [done|].
      split; [|split; [|split]].
      * rewrite Hb. unfold rendered_lines, concat_strings. simpl.
        by rewrite !append_assoc.
      * rewrite Hcat. unfold concat_strings in *. simpl.
        rewrite append_assoc, Hc, append_nil_l. done.
      * intros [|i] l Hl; simplify_eq/=; [done|].
        destruct (Hfit i l Hl) as [?|[?|Hlt]]; [by left | by right; left |].
        right; right. by destruct i.
      * by destruct lines.
    + destruct (IH b (line ++ w) offset)
        as (lines & b' & line' & off' & Hf & Hb & Hc & Hfit & Hoff');
        [intros w' Hw'; apply HW; by right | lia | | |].
      { rewrite len_append. lia. }
      { right; right. rewrite len_append. lia. }
      exists lines, b', line', off'. split; [done|].
      split; [done|]. split; [|done].
      rewrite Hc, Hcat. by rewrite append_assoc.
Qed.

(** X27. [writeWrappedWithStyle] keeps the lines inside the window, but
    for a word that is too long: every line it writes is empty, or one
    piece of the text up to and with a space, or fits in the window after
    its offset, which is the offset given for the first line and zero for
    the others. The offset it returns is the offset of the last line plus
    the length of that line. *)
Theorem writeWrappedWithStyle_fits (b : string) (offset winW : Z)
    (s : string) :
  0 ≤ offset → offset + len s + 1 < 2 ^ 63 →
  ∃ lines last,
    writeWrappedWithStyle Render b offset winW s
      = (b ++ rendered_lines Render lines ++ Render last,
         match lines with [] => offset | _ :: _ => 0 end + len last) ∧
    concat_strings lines ++ last = s ∧
    ∀ i l, (lines ++ [last])%list !! i = Some l →
           l = "" ∨ l ∈ SplitAfter_space s ∨
           match i with O => offset | S _ => 0 end + len l < winW.
Proof.
  intros Hoff Hbound. unfold writeWrappedWithStyle.
  destruct (SplitAfter_space_spec s) as (Hc & _).
  destruct (wrapWord_fold_fits winW (SplitAfter_space s) (SplitAfter_space s)
              b "" offset)
    as (lines & b' & line' & off' & Hf & Hb & Hcs & Hfit & Hoff');
    [done | done | | by left |].
  { rewrite Hc. change (len "") with 0. lia. }
  rewrite Hf. exists lines, line'.
  rewrite append_nil_l, Hc in Hcs.
  assert (Hlen : len s = len (concat_strings lines) + len line')
    by (by rewrite <- Hcs, len_append).
  pose proof (len_nonneg (concat_strings lines)).
  pose proof (len_nonneg line').
  split; [|split; [done|done]].
  rewrite Hb, Hoff', append_assoc. f_equal.
  apply wrap64_small. destruct lines; lia.
Qed.

End tui_wrapping.

Section tui_confirm.
Import tui.

Context {Form Policy Err : Type}.
Variable maybeShutdown : Msg Policy Err → bool.
Variable isEscMsg : Msg Policy Err → bool.
Variable form_Update : KeyType → string → Form → Form.
Variable Value : nat → Form → string.
Variable SetValue : nat → string → Form → Form.
Variable ReadFile : string → option Err.

Implicit Types (pw : lnRequestRecvWindow Form Policy Err).
Implicit Types (msg : Msg Policy Err).

(** A window [Update] returns has its choice at 0 or 1 when the window it
    was given has. *)
Lemma Update_confirmIdx msg pw pw' :
  confirmIdx pw = 0 ∨ confirmIdx pw = 1 →
  (Update maybeShutdown isEscMsg form_Update Value SetValue ReadFile
     msg pw).1 = RecvWindow pw' →
  confirmIdx pw' = 0 ∨ confirmIdx pw' = 1.
Proof.
  intros Hidx. unfold tui.Update.
  destruct (maybeShutdown msg); [done|]. destruct (isEscMsg msg); [done|].
  destruct msg as [ty str|w h|p|err| |]; simpl.
  - destruct ty; [done|]. destruct (confirming pw).
    + destruct Hidx as [H|H]; rewrite H;
        repeat (destruct (String.eqb str _); simpl);
        intros [= <-]; simpl; auto.
    + destruct (isManual pw); intros [= <-]; simpl; auto.
  - by intros [= <-].
  - intros [= <-]. simpl. auto.
  - destruct err; [|done]. simpl. by intros [= <-].
  - destruct (confirming pw); by intros [= <-].
  - destruct (confirming pw); by intros [= <-].
Qed.

Lemma Updates_confirmIdx (msgs : list (Msg Policy Err)) pw pw' :
  confirmIdx pw = 0 ∨ confirmIdx pw = 1 →
  Updates maybeShutdown isEscMsg form_Update Value SetValue ReadFile
    msgs pw = Some pw' →
  confirmIdx pw' = 0 ∨ confirmIdx pw' = 1.
Proof.
  revert pw. induction msgs as [|msg msgs IH]; intros pw Hidx; simpl.
  - by intros [= <-].
  - destruct (Update maybeShutdown isEscMsg form_Update Value SetValue ReadFile
     msg pw).1 as [| | |pw1] eqn:Hu; try done.
    apply IH. by eapply Update_confirmIdx.
Qed.

(** X22. The window that asks to confirm a payment, after any messages
    that left it on screen, from a choice of 0 or 1 (a new window has 0):
    the choice is 0 (yes) or 1 (no). A message that shuts down, the escape
    key and F2 leave the window, before the choice is looked at. While the
    payment is being confirmed, of the other keys, tab, right, shift+tab
    and left each switch to the other choice (the remainder of -1 by 2 is
    -1 in Go, and the mask brings it back to 1); enter ends the
    confirmation and answers yes exactly when the choice is 0; every other
    key leaves the window as it is. *)
Theorem Update_confirming (msgs : list (Msg Policy Err)) pw0 pw :
  confirmIdx pw0 = 0 ∨ confirmIdx pw0 = 1 →
  Updates maybeShutdown isEscMsg form_Update Value SetValue ReadFile
    msgs pw0 = Some pw →
  (confirmIdx pw = 0 ∨ confirmIdx pw = 1) ∧
  ∀ (ty : KeyType) (key : string),
    let msg := KeyMsg ty key in
    let Update :=
      Update maybeShutdown isEscMsg form_Update Value SetValue ReadFile in
    (maybeShutdown msg = true → Update msg pw = (ShutdownState, None)) ∧
    (maybeShutdown msg = false → isEscMsg msg = true →
       Update msg pw = (MainWindowState, None)) ∧
    (maybeShutdown msg = false → isEscMsg msg = false → ty = KeyF2 →
       Update msg pw = (NewRecvWindow true, None)) ∧
    (maybeShutdown msg = false → isEscMsg msg = false → ty = KeyOther →
     confirming pw = true →
       (key ∈ ["tab"; "right"; "shift+tab"; "left"] →
          Update msg pw
            = (RecvWindow (set_confirmIdx (1 - confirmIdx pw) pw), None)) ∧
       (key = "enter" →
          Update msg pw
            = (RecvWindow (set_confirming false pw),
               Some (confirmIdx pw =? 0))) ∧
       (key ∉ ["tab"; "right"; "shift+tab"; "left"; "enter"] →
          Update msg pw = (RecvWindow pw, None))).
Proof.
  intros Hidx0 Hrun.
  pose proof (Updates_confirmIdx msgs pw0 pw Hidx0 Hrun) as Hidx.
  split; [done|]. intros ty key msg Upd. unfold Upd, tui.Update.
  split; [by intros ->|]. split; [by intros -> ->|].
  split; [by intros -> -> ->|].
  intros -> -> -> Hc. subst msg. cbv beta iota zeta. rewrite Hc.
  split; [|split].
  - intros Hkey. repeat (apply elem_of_cons in Hkey as [->|Hkey]);
      [..|by apply elem_of_nil in Hkey];
      destruct Hidx as [H|H]; rewrite H; reflexivity.
  - intros ->. reflexivity.
  - intros Hkey.
    assert (Hne : ∀ k, k ∈ ["tab"; "right"; "shift+tab"; "left"; "enter"] →
                       String.eqb key k = false).
    { intros k Hk. apply String.eqb_neq. by intros ->. }
    rewrite (Hne "tab"), (Hne "right"), (Hne "shift+tab"), (Hne "left"),
      (Hne "enter") by (rewrite !elem_of_cons; auto 10).
    done.
Qed.

End tui_confirm.

Section tui_confirm_examples.
Import tui.

Lemma Update_confirming_witness :
  (confirmIdx (new_recv_window false) = 0 ∨
   confirmIdx (new_recv_window false) = 1) ∧
  ∃ pw,
    Updates quit_key esc_key (λ _ _ f, f) (λ _ _, "") (λ _ _ f, f)
      (λ _, None) confirm_msgs (new_recv_window false) = Some pw ∧
    (confirmIdx pw = 0 ∨ confirmIdx pw = 1) ∧
    ∀ (ty : KeyType) (key : string),
      let msg := KeyMsg ty key in
      let Update :=
        Update quit_key esc_key (λ _ _ f, f) (λ _ _, "") (λ _ _ f, f)
          (λ _, None) in
      (quit_key msg = true → Update msg pw = (ShutdownState, None)) ∧
      (quit_key msg = false → esc_key msg = true →
         Update msg pw = (MainWindowState, None)) ∧
      (quit_key msg = false → esc_key msg = false → ty = KeyF2 →
         Update msg pw = (NewRecvWindow true, None)) ∧
      (quit_key msg = false → esc_key msg = false → ty = KeyOther →
       confirming pw = true →
         (key ∈ ["tab"; "right"; "shift+tab"; "left"] →
            Update msg pw
              = (RecvWindow (set_confirmIdx (1 - confirmIdx pw) pw), None)) ∧
         (key = "enter" →
            Update msg pw
              = (RecvWindow (set_confirming false pw),
                 Some (confirmIdx pw =? 0))) ∧
         (key ∉ ["tab"; "right"; "shift+tab"; "left"; "enter"] →
            Update msg pw = (RecvWindow pw, None))).
Proof.
  assert (confirmIdx (new_recv_window false) = 0 ∨
          confirmIdx (new_recv_window false) = 1) as H0
    by (left; reflexivity).
  split; [exact H0|].
  destruct (Updates quit_key esc_key (λ _ _ f, f) (λ _ _, "") (λ _ _ f, f)
              (λ _, None) confirm_msgs (new_recv_window false))
    as [pw|] eqn:H.
  - exists pw. split; [reflexivity|].
    exact (Update_confirming quit_key esc_key (λ _ _ f, f) (λ _ _, "")
             (λ _ _ f, f) (λ _, None) confirm_msgs (new_recv_window false)
             pw H0 H).
  - vm_compute in H. discriminate H.
Defined.

(** The window of the witness: the payment is being confirmed, the choice
    is back at yes after tab, left and shift+tab, and the size is the new
    one. *)
Example Updates_example :
  Updates quit_key esc_key (λ _ _ f, f) (λ _ _, "") (λ _ _ f, f)
    (λ _, None) confirm_msgs (new_recv_window false)
  = Some (mkRecvWindow tt None true 1 false (Some tt) false 100 30).
Proof. vm_compute. reflexivity. Qed.

(** Escape and F2 leave the window also while a payment is being
    confirmed. *)
Example Update_esc_example :
  let pw := mkRecvWindow tt None true 1 false (Some tt) false 100 30 in
  let Update :=
    Update quit_key esc_key (λ _ _ f, f) (λ _ _, "") (λ _ _ f, f)
      (λ _, None) in
  Update (KeyMsg KeyOther "esc") pw = (MainWindowState, None) ∧
  Update (KeyMsg KeyF2 "f2") pw = (NewRecvWindow true, None) ∧
  Update (KeyMsg KeyOther "enter") pw
    = (RecvWindow (mkRecvWindow tt None false 1 false (Some tt) false 100 30),
       Some false).
Proof. vm_compute. repeat split. Qed.

End tui_confirm_examples.

(** ** The helpers of the end-to-end tests *)

Section e2e.
Import e2etests.

Lemma pollKXd_spec (alice_sees bob_sees : nat → bool) (n i : nat)
    (gotAlice gotBob : bool) :
  let r := pollKXd alice_sees bob_sees n i gotAlice gotBob in
  (r.1 = true ∧ r.2 = true) ↔
  (gotAlice = true ∨ ∃ k, (i ≤ k < i + n)%nat ∧ alice_sees k = true) ∧
  (gotBob = true ∨ ∃ k, (i ≤ k < i + n)%nat ∧ bob_sees k = true).
Proof.
  revert i gotAlice gotBob. induction n as [|n IH]; intros i gA gB; simpl.
  - split; [intros [-> ->]; auto|].
    intros [[HA|(k & ? & _)] [HB|(k' & ? & _)]]; first [lia | done].
  - destruct (negb gA || negb gB) eqn:Hcont.
    + rewrite IH. clear IH. split.
      * intros [HA HB]. split.
        -- destruct HA as [HA|(k & Hk & Ha)].
           ++ destruct (alice_sees i) eqn:Hai; [|auto].
              right. exists i. split; [lia | done].
           ++ right. exists k. split; [lia | done].
        -- destruct HB as [HB|(k & Hk & Hb)].
           ++ destruct (bob_sees i) eqn:Hbi; [|auto].
              right. exists i. split; [lia | done].
           ++ right. exists k. split; [lia | done].
      * intros [HA HB]. split.
        -- destruct HA as [->|(k & Hk & Ha)]; [by destruct (alice_sees i); auto|].
           destruct (decide (k = i)) as [->|Hne]; [rewrite Ha; auto|].
           right. exists k. split; [lia | done].
        -- destruct HB as [->|(k & Hk & Hb)]; [by destruct (bob_sees i); auto|].
           destruct (decide (k = i)) as [->|Hne]; [rewrite Hb; auto|].
           right. exists k. split; [lia | done].
    + destruct gA, gB; try done. simpl. split; auto.
Qed.

(** X23. [assertClientsKXd] lets the test go on exactly when, within the
    hundred polls, each client has seen the other at some poll; the two
    need not be seen at the same poll. *)
Theorem assertClientsKXd_spec (alice_sees bob_sees : nat → bool) :
  assertClientsKXd alice_sees bob_sees = true ↔
  (∃ i, (i < 100)%nat ∧ alice_sees i = true) ∧
  (∃ j, (j < 100)%nat ∧ bob_sees j = true).
Proof.
  unfold assertClientsKXd.
  pose proof (pollKXd_spec alice_sees bob_sees 100 0 false false) as H.
  destruct (pollKXd alice_sees bob_sees 100 0 false false) as [gA gB].
  simpl in H. rewrite <- negb_andb, negb_involutive, andb_true_iff, H.
  split.
  - intros [[?|(i & Hi & ?)] [?|(j & Hj & ?)]]; try done.
    split; [exists i | exists j]; split; (lia || done).
  - intros [(i & Hi & ?) (j & Hj & ?)].
    split; right; [exists i | exists j]; split; (lia || done).
Qed.

Lemma pollUpToDate_last (obs : nat → bool * Z * Z) (n i : nat)
    (err : option uptodate_error) :
  pollUpToDate obs (S n) i err =
    let '(rvs, q, s) := obs (i + n)%nat in checkUpToDate rvs q s.
Proof.
  revert i err. induction n as [|n IH]; intros i err.
  - simpl. rewrite Nat.add_0_r. by destruct (obs i) as [[? ?] ?].
  - change (pollUpToDate obs (S (S n)) i err)
      with (let '(rvs, q, s) := obs i in
            pollUpToDate obs (S n) (S i) (checkUpToDate rvs q s)).
    destruct (obs i) as [[rvs q] s]. rewrite IH.
    by replace (S i + n)%nat with (i + S n)%nat by lia.
Qed.

(** X24. [assertClientUpToDate] never leaves its loop early: it polls two
    hundred times, and what it reports is what the last poll found, whatever
    the earlier polls found. *)
Theorem assertClientUpToDate_last (obs : nat → bool * Z * Z) :
  assertClientUpToDate obs =
    let '(rvs, q, s) := obs 199%nat in checkUpToDate rvs q s.
Proof. unfold assertClientUpToDate. by rewrite pollUpToDate_last. Qed.

End e2e.

(** ** Rendering the chat window *)

Section rendering_props.
Import chatmsg tui render.

Context {embeddedArgs : Type}.
Variable formatTime : Z → string.
Variable Width : string → Z.
Variable embedLabel : embeddedArgs → string.
Variable set_uid : option UserID → embeddedArgs → embeddedArgs.
Variable PostTitle : PostMetadata → string.
Variable RMPIdentifier : string.
Variable quoted : string → string.

Implicit Types (cw : chatWindow embeddedArgs) (m : chatMsg embeddedArgs).
Implicit Types (el : chatMsgEl embeddedArgs).

Lemma same_but_embeds_refl cw : same_but_embeds cw cw.
Proof. unfold same_but_embeds. by destruct cw. Qed.

Lemma same_but_embeds_trans cw1 cw2 cw3 :
  same_but_embeds cw1 cw2 → same_but_embeds cw2 cw3 → same_but_embeds cw1 cw3.
Proof.
  unfold same_but_embeds, set_selEmbedArgs, set_maxEmbeds. intros H1 H2.
  destruct cw1, cw2, cw3. simpl in *. congruence.
Qed.

Lemma renderEl_embeds (winW : Z) (styles as_styles : theme) (style : Style)
    (sender : option UserID) (b : string) (offset : Z) cw el :
  let r := renderEl embedLabel set_uid winW styles as_styles style sender
             (b, offset, cw) el in
  same_but_embeds cw r.1.2 ∧
  (maxEmbeds r.1.2, selEmbedArgs r.1.2) =
    select_embeds set_uid (selEmbed cw) (maxEmbeds cw, selEmbedArgs cw)
      ((λ a, (sender, a)) <$> omap embed [el]).
Proof.
  unfold renderEl. simpl. destruct (embed el) as [args|]; simpl.
  - destruct (maxEmbeds cw =? selEmbed cw); simpl;
      destruct (writeWrappedWithStyle _ _ _ _ _); simpl;
      split; try done; unfold same_but_embeds; by destruct cw.
  - destruct (mention el); [|destruct (url el)];
      first [destruct (writeWrappedWithStyle _ _ _ _ _)
            |destruct (writeWrappedURL _ _ _ _)];
      simpl; split; try done; apply same_but_embeds_refl.
Qed.

Local Arguments renderEl : simpl never.

Lemma select_embeds_app (sel : Z) (st : Z * embeddedArgs)
    (es1 es2 : list (option UserID * embeddedArgs)) :
  select_embeds set_uid sel st (es1 ++ es2) =
    select_embeds set_uid sel (select_embeds set_uid sel st es1) es2.
Proof. revert st. induction es1 as [|e es1 IH]; intros st; simpl; auto. Qed.

Lemma same_but_embeds_selEmbed cw cw' :
  same_but_embeds cw cw' →
  selEmbed cw' = selEmbed cw ∧ unreadIdx cw' = unreadIdx cw ∧
  msgs cw' = msgs cw.
Proof. intros ->. done. Qed.

Lemma renderLine_embeds (winW : Z) (styles as_styles : theme) (style : Style)
    (sender : option UserID) (line : list (chatMsgEl embeddedArgs))
    (b : string) (offset : Z) cw :
  let r := renderLine embedLabel set_uid winW styles as_styles style sender
             (b, offset, cw) line in
  same_but_embeds cw r.1.2 ∧
  (maxEmbeds r.1.2, selEmbedArgs r.1.2) =
    select_embeds set_uid (selEmbed cw) (maxEmbeds cw, selEmbedArgs cw)
      ((λ a, (sender, a)) <$> omap embed line) ∧
  length r.2 = length line.
Proof.
  revert b offset cw. induction line as [|el line IH]; intros b offset cw.
  - simpl. split; [apply same_but_embeds_refl | done].
  - cbn [renderLine].
    pose proof (renderEl_embeds winW styles as_styles style sender b offset cw el)
      as [Hs1 He1].
    destruct (renderEl _ _ _ _ _ _ _ _ el) as [[[b1 o1] cw1] el1].
    simpl in Hs1, He1.
    specialize (IH b1 o1 cw1).
    destruct (renderLine _ _ _ _ _ _ _ _ line) as [[[b2 o2] cw2] line2].
    simpl in IH. destruct IH as (Hs2 & He2 & Hlen). simpl.
    split; [by eapply same_but_embeds_trans|]. split; [|by rewrite Hlen].
    rewrite He2.
    destruct (same_but_embeds_selEmbed _ _ Hs1) as (-> & _).
    rewrite He1. by destruct (embed el).
Qed.

Local Arguments renderLine : simpl never.

Lemma renderLines_embeds (winW : Z) (styles as_styles : theme) (style : Style)
    (sender : option UserID) (lines : list (list (chatMsgEl embeddedArgs)))
    (b : string) (offset : Z) cw :
  let r := renderLines embedLabel set_uid winW styles as_styles style sender
             (b, offset, cw) lines in
  same_but_embeds cw r.1.2 ∧
  (maxEmbeds r.1.2, selEmbedArgs r.1.2) =
    select_embeds set_uid (selEmbed cw) (maxEmbeds cw, selEmbedArgs cw)
      ((λ a, (sender, a)) <$> omap embed (mjoin lines)).
Proof.
  revert b offset cw. induction lines as [|line lines IH]; intros b offset cw.
  - simpl. split; [apply same_but_embeds_refl | done].
  - cbn [renderLines].
    pose proof (renderLine_embeds winW styles as_styles style sender line
                  b offset cw) as (Hs1 & He1 & _).
    destruct (renderLine _ _ _ _ _ _ _ _ line) as [[[b1 o1] cw1] line1].
    simpl in Hs1, He1.
    specialize (IH (b1 ++ newline) 0 cw1).
    destruct (renderLines _ _ _ _ _ _ _ _ lines) as [[[b2 o2] cw2] lines2].
    simpl in IH. destruct IH as (Hs2 & He2). simpl.
    split; [by eapply same_but_embeds_trans|].
    rewrite He2.
    destruct (same_but_embeds_selEmbed _ _ Hs1) as (-> & _).
    by rewrite omap_app, fmap_app, select_embeds_app, <- He1.
Qed.

Local Arguments renderLines : simpl never.

Lemma renderMsg_embeds (winW : Z) (styles as_styles : theme) (b : string)
    cw m :
  let r := renderMsg formatTime Width embedLabel set_uid winW styles
             as_styles b cw m in
  same_but_embeds cw r.1.2 ∧
  (maxEmbeds r.1.2, selEmbedArgs r.1.2) =
    select_embeds set_uid (selEmbed cw) (maxEmbeds cw, selEmbedArgs cw)
      ((λ a, (fromUID m, a)) <$> embeds_of m).
Proof.
  unfold renderMsg, embeds_of.
  match goal with
  | |- context [renderLines _ _ ?w ?s ?a ?st ?u (?b0, ?o0, cw) (elements m)] =>
      pose proof (renderLines_embeds w s a st u (elements m) b0 o0 cw) as H;
      destruct (renderLines embedLabel set_uid w s a st u (b0, o0, cw)
                  (elements m)) as [[[b1 o1] cw1] els]
  end.
  exact H.
Qed.

Local Arguments renderMsg : simpl never.

Lemma renderFrom_embeds (winW : Z) (styles as_styles : theme)
    (ms ms' : list (chatMsg embeddedArgs)) (i : Z) (b b' : string) cw cw' :
  renderFrom formatTime Width embedLabel set_uid PostTitle RMPIdentifier
    quoted winW styles as_styles i b cw ms = Some (b', cw', ms') →
  same_but_embeds cw cw' ∧
  (maxEmbeds cw', selEmbedArgs cw') =
    select_embeds set_uid (selEmbed cw) (maxEmbeds cw, selEmbedArgs cw)
      (shown_embeds ms) ∧
  length ms' = length ms.
Proof.
  revert ms' i b b' cw cw'.
  induction ms as [|m ms IH]; intros ms' i b b' cw cw' H.
  - simpl in H. simplify_eq. split; [apply same_but_embeds_refl | done].
  - cbn [renderFrom] in H.
    match type of H with
    | ?o ≫= _ = _ => destruct o as [b0|]; [|done]
    end.
    cbn [mbind option_bind] in H.
    change (shown_embeds (m :: ms))
      with ((match post m with
             | Some _ => []
             | None => (λ a, (fromUID m, a)) <$> embeds_of m
             end) ++ shown_embeds ms)%list.
    destruct (post m) as [p|].
    + destruct (renderFrom _ _ _ _ _ _ _ _ _ _ _ _ _ ms)
        as [[[b1 cw1] ms1]|] eqn:Hr; [|done].
      cbn [mbind option_bind] in H. simplify_eq.
      destruct (IH _ _ _ _ _ _ Hr) as (Hs & He & Hl).
      split; [done|]. split; [done|]. simpl. by rewrite Hl.
    + pose proof (renderMsg_embeds winW styles as_styles b0 cw m) as [Hs1 He1].
      destruct (renderMsg _ _ _ _ _ _ _ _ cw m) as [[b1 cw1] m1].
      simpl in Hs1, He1.
      destruct (renderFrom _ _ _ _ _ _ _ _ _ _ _ _ _ ms)
        as [[[b2 cw2] ms2]|] eqn:Hr; [|done].
      cbn [mbind option_bind] in H. simplify_eq.
      destruct (IH _ _ _ _ _ _ Hr) as (Hs & He & Hl).
      split; [by eapply same_but_embeds_trans|]. split; [|simpl; by rewrite Hl].
      rewrite He. destruct (same_but_embeds_selEmbed _ _ Hs1) as (-> & _).
      by rewrite select_embeds_app, <- He1.
Qed.

Lemma RuneCount_unreadMsg : RuneCount unreadMsg = 16.
Proof. reflexivity. Qed.

Lemma Repeat_dashes (winW : Z) :
  - 2 ^ 62 < winW < 2 ^ 61 →
  Repeat "―" (wrap64 (winW - RuneCount unreadMsg)) = None ↔ winW < 16.
Proof.
  intros Hw. rewrite RuneCount_unreadMsg, wrap64_small by lia.
  unfold Repeat. change (len "―") with 3.
  destruct (Z.ltb_spec (winW - 16) 0).
  - split; [lia | done].
  - destruct (Z.geb_spec (3 * (winW - 16)) (2 ^ 63)); [lia|].
    split; [done | lia].
Qed.

Lemma renderFrom_None (winW : Z) (styles as_styles : theme)
    (ms : list (chatMsg embeddedArgs)) (i : Z) (b : string) cw :
  - 2 ^ 62 < winW < 2 ^ 61 →
  renderFrom formatTime Width embedLabel set_uid PostTitle RMPIdentifier
    quoted winW styles as_styles i b cw ms = None ↔
  (i ≤ unreadIdx cw < i + Z.of_nat (length ms) ∧ winW < 16).
Proof.
  intros Hw. revert i b cw.
  induction ms as [|m ms IH]; intros i b cw.
  - simpl. split; [done | lia].
  - cbn [renderFrom].
    pose proof (Repeat_dashes winW Hw) as Hrep.
    assert (∀ (b0 : string) (P : Prop),
      (match post m with
       | Some _ =>
           '(b1, cw1, rest) ←
             renderFrom formatTime Width embedLabel set_uid PostTitle
               RMPIdentifier quoted winW styles as_styles (i + 1)
               (renderPost formatTime PostTitle RMPIdentifier quoted styles
                  b0 cw m) cw ms;
           Some (b1, cw1, m :: rest)
       | None =>
           let '(b1, cw1, m1) :=
             renderMsg formatTime Width embedLabel set_uid winW styles
               as_styles b0 cw m in
           '(b2, cw2, rest) ←
             renderFrom formatTime Width embedLabel set_uid PostTitle
               RMPIdentifier quoted winW styles as_styles (i + 1) b1 cw1 ms;
           Some (b2, cw2, m1 :: rest)
       end = None) ↔
      (i + 1 ≤ unreadIdx cw < i + 1 + Z.of_nat (length ms) ∧ winW < 16))
      as Hrest.
    { intros b0 _. destruct (post m) as [p|].
      - match goal with
        | |- context [renderFrom _ _ _ _ _ _ _ _ _ _ ?j ?b1 ?c ms] =>
            rewrite <- (IH j b1 c);
            destruct (renderFrom formatTime Width embedLabel set_uid PostTitle
                        RMPIdentifier quoted winW styles as_styles j b1 c ms)
              as [[[? ?] ?]|]
        end; by cbn [mbind option_bind].
      - pose proof (renderMsg_embeds winW styles as_styles b0 cw m) as [Hs _].
        destruct (renderMsg _ _ _ _ _ _ _ _ cw m) as [[b1 cw1] m1].
        simpl in Hs.
        destruct (same_but_embeds_selEmbed _ _ Hs) as (_ & <- & _).
        match goal with
        | |- context [renderFrom _ _ _ _ _ _ _ _ _ _ ?j ?b2 ?c ms] =>
            rewrite <- (IH j b2 c);
            destruct (renderFrom formatTime Width embedLabel set_uid PostTitle
                        RMPIdentifier quoted winW styles as_styles j b2 c ms)
              as [[[? ?] ?]|]
        end; by cbn [mbind option_bind]. }
    cbn [length]. destruct (Z.eqb_spec i (unreadIdx cw)) as [Heq|Hne].
    + cbv zeta.
      destruct (Repeat "―" (wrap64 (winW - RuneCount unreadMsg))) as [d|].
      * cbn [mbind option_bind]. rewrite (Hrest _ True).
        assert (¬ winW < 16) by (intros Hlt; by apply Hrep in Hlt). lia.
      * cbn [mbind option_bind].
        assert (winW < 16) by by apply Hrep. split; [lia | done].
    + cbn [mbind option_bind]. rewrite (Hrest _ True). lia.
Qed.

(** X25. [renderContent] panics, in [strings.Repeat], exactly when the
    window has an unread message and is narrower than the sixteen runes of
    the unread marker. *)
Theorem renderContent_panics (winW : Z) (styles as_styles : theme) cw :
  - 2 ^ 62 < winW < 2 ^ 61 →
  renderContent formatTime Width embedLabel set_uid PostTitle RMPIdentifier
    quoted winW styles as_styles cw = None ↔
  (0 ≤ unreadIdx cw < len_msgs cw ∧ winW < 16).
Proof.
  intros Hw. unfold renderContent, len_msgs. cbv zeta.
  pose proof (renderFrom_None winW styles as_styles (msgs (set_maxEmbeds 0 cw))
                0 "" (set_maxEmbeds 0 cw) Hw) as H.
  change (msgs (set_maxEmbeds 0 cw)) with (msgs cw) in *.
  change (unreadIdx (set_maxEmbeds 0 cw)) with (unreadIdx cw) in H.
  rewrite Z.add_0_l in H. rewrite <- H.
  destruct (renderFrom _ _ _ _ _ _ _ _ _ _ _ _ _ (msgs cw)) as [[[? ?] ?]|];
    by cbn [mbind option_bind].
Qed.

Lemma select_embeds_spec (sel : Z) (es : list (option UserID * embeddedArgs))
    (k : Z) (old : embeddedArgs) :
  0 ≤ k → k + Z.of_nat (length es) < 2 ^ 63 →
  select_embeds set_uid sel (k, old) es =
    (k + Z.of_nat (length es),
     match (if k <=? sel then es !! Z.to_nat (sel - k) else None) with
     | Some e => set_uid e.1 e.2
     | None => old
     end).
Proof.
  revert k old. induction es as [|e es IH]; intros k old Hk Hlen.
  - simpl. rewrite Z.add_0_r. by destruct (k <=? sel).
  - cbn [select_embeds fst snd]. cbn [length] in Hlen.
    rewrite wrap64_small by lia. rewrite IH by lia.
    f_equal; [cbn [length]; lia|].
    destruct (Z.leb_spec (k + 1) sel) as [Hle|Hgt].
    + destruct (Z.leb_spec k sel); [|lia].
      replace (Z.to_nat (sel - k)) with (S (Z.to_nat (sel - (k + 1)))) by lia.
      cbn [lookup list_lookup].
      destruct (es !! Z.to_nat (sel - (k + 1))); [done|].
      destruct (Z.eqb_spec k sel); [lia | done].
    + destruct (Z.eqb_spec k sel) as [->|Hne].
      * rewrite Z.leb_refl, Z.sub_diag. done.
      * destruct (Z.leb_spec k sel); [lia | done].
Qed.

(** X26. After a [renderContent] that returns, [maxEmbeds] is the number
    of embeds in the messages that are not posts; [selEmbedArgs] is the
    embed at position [selEmbed] among them, in the order of the window,
    with the sender of its message as uid, and is left as it was when
    [selEmbed] is no such position; the selection, the unread index and the
    number of messages are as before. *)
Theorem renderContent_embeds (winW : Z) (styles as_styles : theme)
    (b : string) cw cw' :
  Z.of_nat (length (shown_embeds (msgs cw))) < 2 ^ 63 →
  renderContent formatTime Width embedLabel set_uid PostTitle RMPIdentifier
    quoted winW styles as_styles cw = Some (b, cw') →
  maxEmbeds cw' = Z.of_nat (length (shown_embeds (msgs cw))) ∧
  selEmbedArgs cw' =
    match (if 0 <=? selEmbed cw
           then shown_embeds (msgs cw) !! Z.to_nat (selEmbed cw)
           else None) with
    | Some e => set_uid e.1 e.2
    | None => selEmbedArgs cw
    end ∧
  selEmbed cw' = selEmbed cw ∧ unreadIdx cw' = unreadIdx cw ∧
  len_msgs cw' = len_msgs cw.
Proof.
  intros Hlen H. unfold renderContent in H. cbv zeta in H.
  destruct (renderFrom _ _ _ _ _ _ _ _ _ _ _ _ _ _) as [[[b1 cw1] ms1]|] eqn:Hr;
    [|done].
  cbn [mbind option_bind] in H. simplify_eq.
  apply renderFrom_embeds in Hr as (Hs & He & Hl).
  change (msgs (set_maxEmbeds 0 cw)) with (msgs cw) in *.
  change (selEmbed (set_maxEmbeds 0 cw)) with (selEmbed cw) in He.
  change (maxEmbeds (set_maxEmbeds 0 cw)) with 0 in He.
  change (selEmbedArgs (set_maxEmbeds 0 cw)) with (selEmbedArgs cw) in He.
  rewrite select_embeds_spec in He by lia.
  rewrite Z.add_0_l, Z.sub_0_r in He.
  destruct (same_but_embeds_selEmbed _ _ Hs) as (Hsel & Hun & _).
  injection He as Hmax Hargs.
  unfold len_msgs. cbn [msgs set_msgs maxEmbeds selEmbedArgs selEmbed unreadIdx].
  by rewrite Hl.
Qed.

End rendering_props.

(** ** Examples of the further properties *)

Section further_examples.
Import inidb chatmsg tui render examples.

Lemma manyHelpMsgs_unread_witness :
  ∃ cw',
    manyHelpMsgs (λ s : string, s) find_nothing find_url compile_word
      [(4, "usage"); (5, "more usage")] (new_window "bob") = Some cw' ∧
    unreadIdx cw' = unreadIdx (new_window "bob") ∧
    unreadCount cw' = unreadCount (new_window "bob") + 2 ∧
    ∃ new, msgs cw' = (msgs (new_window "bob") ++ new)%list ∧
           length new = 2%nat ∧
           Forall (λ m, help m = true ∧ mine m = false ∧ internal m = false)
             new.
Proof.
  destruct (manyHelpMsgs (λ s : string, s) find_nothing find_url compile_word
              [(4, "usage"); (5, "more usage")] (new_window "bob"))
    as [cw'|] eqn:H.
  - exists cw'. split; [reflexivity|].
    exact (manyHelpMsgs_unread (λ s : string, s) find_nothing find_url
             compile_word [(4, "usage"); (5, "more usage")]
             (new_window "bob") cw' H).
  - vm_compute in H. discriminate H.
Defined.

Lemma run_append_only_witness :
  ∃ cw',
    run (λ s : string, s) find_nothing find_url compile_word
      example_calls (new_window "bob") = Some cw' ∧
    ∃ new, msgs cw' = (msgs (new_window "bob") ++ new)%list.
Proof.
  destruct (run (λ s : string, s) find_nothing find_url compile_word
              example_calls (new_window "bob")) as [cw'|] eqn:H.
  - exists cw'. split; [reflexivity|].
    exact (run_append_only (λ s : string, s) find_nothing find_url
             compile_word example_calls (new_window "bob") cw' H).
  - vm_compute in H. discriminate H.
Defined.

Lemma parseMsgIntoElements_one_kind_witness :
  ∃ ls,
    parseMsgIntoElements (λ s : string, s) find_nothing find_url compile_word
      two_lines "bob" = Some ls ∧
    Forall (Forall (λ el, one_kind el = true)) ls ∧
    length ls = length (split_lines two_lines) ∧
    ls ≠ [].
Proof.
  destruct (parseMsgIntoElements (λ s : string, s) find_nothing find_url
              compile_word two_lines "bob") as [ls|] eqn:H.
  - exists ls. split; [reflexivity|].
    exact (parseMsgIntoElements_one_kind (λ s : string, s) find_nothing
             find_url compile_word two_lines "bob" ls H).
  - vm_compute in H. discriminate H.
Defined.

Lemma parseMsgIntoElements_content_witness :
  regexp_ok find_url ∧
  (∀ pattern re, compile_word pattern = Some re → regexp_ok re) ∧
  Forall (λ line, find_nothing line = []) (split_lines two_lines) ∧
  ∃ ls,
    parseMsgIntoElements (λ s : string, s) find_nothing find_url compile_word
      two_lines "bob" = Some ls ∧
    join_lines (content <$> ls) = two_lines.
Proof.
  assert (Forall (λ line, find_nothing line = []) (split_lines two_lines))
    as Hno by (vm_compute; repeat constructor).
  split; [exact find_url_ok|]. split; [exact compile_word_ok|].
  split; [exact Hno|].
  exact (parseMsgIntoElements_content (λ s : string, s) find_nothing find_url
           compile_word find_url_ok compile_word_ok two_lines "bob" Hno).
Defined.

Lemma changeSelectedEmbed_step_witness :
  (1 = 1 ∨ 1 = -1) ∧
  0 ≤ selEmbed embeds_window ≤ Z.max 0 (maxEmbeds embeds_window - 1) ∧
  0 ≤ maxEmbeds embeds_window < 2 ^ 62 ∧
  let r := changeSelectedEmbed 1 embeds_window in
  0 ≤ selEmbed r.2 ≤ Z.max 0 (maxEmbeds r.2 - 1) ∧
  (r.1 = false ↔
     (selEmbed embeds_window = 0 ∧ 1 = -1) ∨
     (selEmbed embeds_window = Z.max 0 (maxEmbeds embeds_window - 1) ∧
      1 = 1)) ∧
  (r.1 = false → r.2 = embeds_window) ∧
  (r.1 = true → r.2 = set_selEmbed (selEmbed embeds_window + 1) embeds_window).
Proof.
  split; [left; reflexivity|]. split; [simpl; lia|]. split; [simpl; lia|].
  apply (changeSelectedEmbed_step 1 embeds_window).
  - left; reflexivity.
  - simpl; lia.
  - simpl; lia.
Defined.

Lemma writeWrappedURL_spec_witness :
  0 ≤ 5 ∧ 0 ≤ 20 ∧ 5 + len "https://bisonrelay.org" < 2 ^ 63 ∧
  ∃ pre post,
    writeWrappedURL "see: " 5 20 "https://bisonrelay.org"
      = ("see: " ++ pre ++ "https://bisonrelay.org" ++ post,
         (writeWrappedURL "see: " 5 20 "https://bisonrelay.org").2) ∧
    (pre = (if 5 + len "https://bisonrelay.org" >? 20 then newline else "")) ∧
    (post = (if len "https://bisonrelay.org" >? 20 then newline else "")) ∧
    0 ≤ (writeWrappedURL "see: " 5 20 "https://bisonrelay.org").2 ≤ 20.
Proof.
  split; [lia|]. split; [lia|]. split; [vm_compute; reflexivity|].
  apply (writeWrappedURL_spec "see: " 5 20 "https://bisonrelay.org").
  - lia.
  - lia.
  - vm_compute; reflexivity.
Defined.

Lemma writeWrappedWithStyle_fits_witness :
  0 ≤ 5 ∧ 5 + len "hello brave new world" + 1 < 2 ^ 63 ∧
  ∃ lines last,
    writeWrappedWithStyle id "12:00" 5 12 "hello brave new world"
      = ("12:00" ++ rendered_lines id lines ++ id last,
         match lines with [] => 5 | _ :: _ => 0 end + len last) ∧
    concat_strings lines ++ last = "hello brave new world" ∧
    ∀ i l, (lines ++ [last])%list !! i = Some l →
           l = "" ∨ l ∈ SplitAfter_space "hello brave new world" ∨
           match i with O => 5 | S _ => 0 end + len l < 12.
Proof.
  split; [lia|]. split; [vm_compute; reflexivity|].
  apply (writeWrappedWithStyle_fits id "12:00" 5 12 "hello brave new world").
  - lia.
  - vm_compute; reflexivity.
Defined.

(** The wrapping of the witness: the first word fits after the offset, the
    two that follow share a line, and the last one goes alone. *)
Example writeWrappedWithStyle_example :
  writeWrappedWithStyle id "12:00" 5 12 "hello brave new world"
  = ("12:00" ++ "hello " ++ newline ++ "brave new " ++ newline ++ "world", 5).
Proof. vm_compute. reflexivity. Qed.

Lemma renderContent_panics_witness :
  - 2 ^ 62 < 10 < 2 ^ 61 ∧
  (render_example 10 render_window = None ↔
   (0 ≤ unreadIdx render_window < len_msgs render_window ∧ 10 < 16)).
Proof.
  split; [lia|].
  apply (renderContent_panics (λ _, "12:00:00 ") len snd file_set_uid
           (λ p, default "" (pm_attributes p !! "title")) "rmid" id
           10 plain_theme plain_theme render_window).
  lia.
Defined.

Lemma renderContent_embeds_witness :
  Z.of_nat (length (shown_embeds (msgs render_window))) < 2 ^ 63 ∧
  ∃ b cw',
    render_example 40 render_window = Some (b, cw') ∧
    maxEmbeds cw' = Z.of_nat (length (shown_embeds (msgs render_window))) ∧
    selEmbedArgs cw' =
      match (if 0 <=? selEmbed render_window
             then shown_embeds (msgs render_window)
                    !! Z.to_nat (selEmbed render_window)
             else None) with
      | Some e => file_set_uid e.1 e.2
      | None => selEmbedArgs render_window
      end ∧
    selEmbed cw' = selEmbed render_window ∧
    unreadIdx cw' = unreadIdx render_window ∧
    len_msgs cw' = len_msgs render_window.
Proof.
  assert (Z.of_nat (length (shown_embeds (msgs render_window))) < 2 ^ 63)
    as Hlen by (vm_compute; reflexivity).
  split; [exact Hlen|].
  destruct (render_example 40 render_window) as [[b cw']|] eqn:H.
  - exists b, cw'. split; [reflexivity|].
    exact (renderContent_embeds (λ _, "12:00:00 ") len snd file_set_uid
             (λ p, default "" (pm_attributes p !! "title")) "rmid" id
             40 plain_theme plain_theme b render_window cw' Hlen H).
  - vm_compute in H. discriminate H.
Defined.

(** The text of the example window at forty columns, and the embed that
    ends up selected. *)
Example render_example_text :
  render_example 40 render_window
  = Some ("12:00:00 <alice> Received post news" ++ newline
          ++ "――――――――――――――――――――――――"
          ++ " unread ――――――――" ++ newline
          ++ "12:00:00 <alice> see a.png" ++ newline
          ++ "b.png" ++ newline,
          mkWindow [] false
            [post_msg;
             set_elements
               [[textEl "see "; file_el "a.png"];
                [mkEl "" (Some (Some [Byte.x01], "b.png")) None None]]
               embeds_msg]
            "alice" "bob" [] (Some [Byte.x01], "b.png") 1 2 1).
Proof. vm_compute. reflexivity. Qed.

End further_examples.
